(** * lockr: the fuzzy search engine and its interactive session

    A shallow embedding of [go/internal/search]: the scoring engine
    ([Engine], [Search], [scoreMatch], [fuzzyScore], [createHighlights],
    [limitResults], [SearchInteractive], [FilterTopMatches],
    [GetQuerySuggestions], [GetMatchQuality]) and the interactive session
    ([InteractiveSearch], [AddChar], [RemoveChar], [MoveSelection],
    [updateResults], the "more results" count of [Render],
    [applyHighlights], [Update], [RunInteractiveSearch]), with
    [validateKey] of [go/internal/database], the check every key of a
    vault has passed.

    Modelling conventions.
    - A Go [string] is a sequence of bytes: [String.string].  The two
      library operations that look inside the bytes, [strings.ToLower] and
      the [[]rune] conversion, are embedded twice.  The first part of the
      file has them on their single-byte (ASCII) path: a byte is a
      character, and only 'A'..'Z' change under [ToLower]; that reading is
      exact on ASCII text, which the keys of a vault are.  The module
      [Utf8] has them in
      full, with the UTF-8 decoder and the case table of Unicode, and the
      functions of the package built on them again; the two readings of
      [scoreMatch] agree on ASCII text ([scoreMatch_on_ascii]).  What is
      stated of text outside ASCII is stated in [Utf8].
    - [int] is [Z]; the one addition whose operand is not bounded by a
      length ([MoveSelection]) wraps around at 64 bits.
    - [float64] scores are rationals ([Q]).  The tier constants and
      [80 - 2*idx] are computed exactly by the hardware as well; the
      product of the fuzzy tier is rounded there, and no statement below
      depends on its last digit.
    - A run-time panic (slice bounds, index out of range) is the outcome
      [Panicked]; no code of the package recovers from one.  Where a
      function mutates the engine before it panics ([SearchInteractive]),
      the engine it leaves behind is part of the outcome.
    - [sort.Slice] is library code and not stable: the model takes any
      sorter that returns a sorted permutation whenever the comparison is
      a strict weak ordering ([SliceSorter]); insertion sort is one. *)

From Stdlib Require Import List String Ascii ZArith QArith Bool Lia Lqa.
From Stdlib Require Import Permutation Sorted.
Import ListNotations.

Local Open Scope Z_scope.

(** ** Outcomes of calls that may panic *)

Inductive result (A : Type) : Type :=
| Returned (a : A)
| Panicked.

Arguments Returned {A} a.
Arguments Panicked {A}.

Definition bind {A B : Type} (r : result A) (k : A -> result B) : result B :=
  match r with
  | Returned a => k a
  | Panicked => Panicked
  end.

Notation "x <- r ;; k" := (bind r (fun x => k))
  (at level 61, r at next level, right associativity).

(** ** Go strings and slices *)

Definition rune : Type := ascii.

(** [len(s)] for a string. *)
Definition len (s : string) : Z := Z.of_nat (String.length s).

(** [len(l)] for a slice. *)
Definition llen {A : Type} (l : list A) : Z := Z.of_nat (List.length l).

(** [[]rune(s)] on single-byte text. *)
Definition runes (s : string) : list rune := list_ascii_of_string s.

(** The ASCII branch of [strings.ToLower]: [c += 'a' - 'A'] for
    ['A' <= c && c <= 'Z']. *)
Definition lowerByte (c : ascii) : ascii :=
  if (("A" <=? c)%char && (c <=? "Z")%char)%bool
  then ascii_of_nat (nat_of_ascii c + 32)
  else c.

Fixpoint ToLower (s : string) : string :=
  match s with
  | EmptyString => EmptyString
  | String c s' => String (lowerByte c) (ToLower s')
  end.

(** [string(ch)] for a byte [ch]: the UTF-8 encoding of the code point
    [ch], one byte below [0x80] and two bytes from there on. *)
Definition string_of_byte (ch : ascii) : string :=
  let n := nat_of_ascii ch in
  if (n <? 128)%nat then String ch EmptyString
  else String (ascii_of_nat (192 + n / 64))
         (String (ascii_of_nat (128 + n mod 64)) EmptyString).

(** [strings.HasPrefix(s, prefix)]. *)
Definition HasPrefix (s prefix : string) : bool := String.prefix prefix s.

(** [strings.Index(s, substr)]: offset of the first occurrence, or [-1]. *)
Definition Index (s substr : string) : Z :=
  match String.index 0 substr s with
  | Some n => Z.of_nat n
  | None => -1
  end.

(** [strings.Contains(s, substr)]. *)
Definition Contains (s substr : string) : bool := 0 <=? Index s substr.

(** [s[:hi]] on a slice: panics when [hi] is negative or beyond the slice. *)
Definition slice_to {A : Type} (s : list A) (hi : Z) : result (list A) :=
  if (hi <? 0) || (llen s <? hi) then Panicked
  else Returned (firstn (Z.to_nat hi) s).


(** Two's-complement wrap-around of a 64-bit [int]. *)
Definition wrap64 (z : Z) : Z := (z + 2 ^ 63) mod 2 ^ 64 - 2 ^ 63.

(** Comparison [x < y] on scores. *)
Definition Qltb (x y : Q) : bool := negb (Qle_bool y x).

(** ** Data model *)

(** [database.SearchResult]; the two [time.Time] fields are opaque stamps. *)
Record SearchResult : Type := mkSearchResult {
  Key : string;
  CreatedAt : Z;
  LastAccessed : Z;
  AccessCount : Z;
  Tags : option string
}.

Record HighlightRange : Type := mkHighlightRange {
  Start : Z;
  End : Z
}.

Record MatchResult : Type := mkMatchResult {
  Result : SearchResult;
  Score : Q;
  Highlights : list HighlightRange
}.

Record Engine : Type := mkEngine {
  caseSensitive : bool;
  maxResults : Z;
  highlightMatches : bool
}.

Definition NewEngine : Engine :=
  {| caseSensitive := false; maxResults := 100; highlightMatches := true |}.

Definition SetCaseSensitive (e : Engine) (sensitive : bool) : Engine :=
  {| caseSensitive := sensitive;
     maxResults := maxResults e;
     highlightMatches := highlightMatches e |}.

Definition SetMaxResults (e : Engine) (max : Z) : Engine :=
  {| caseSensitive := caseSensitive e;
     maxResults := max;
     highlightMatches := highlightMatches e |}.

Definition SetHighlightMatches (e : Engine) (highlight : bool) : Engine :=
  {| caseSensitive := caseSensitive e;
     maxResults := maxResults e;
     highlightMatches := highlight |}.

Definition normalizeString (e : Engine) (s : string) : string :=
  if caseSensitive e then s else ToLower s.

(** ** Scoring *)

(** The loop of [createHighlights] from [i = 1] on: [prev] is
    [positions[i-1]], [start] and [end_] the range being built. *)
Fixpoint createHighlights_loop (positions : list Z) (prev start end_ : Z)
    (highlights : list HighlightRange) : list HighlightRange :=
  match positions with
  | [] => highlights ++ [ {| Start := start; End := end_ |} ]
  | p :: rest =>
      if p =? prev + 1
      then createHighlights_loop rest p start (p + 1) highlights
      else createHighlights_loop rest p p (p + 1)
             (highlights ++ [ {| Start := start; End := end_ |} ])
  end.

Definition createHighlights (positions : list Z) (original : list rune)
    : list HighlightRange :=
  match positions with
  | [] => []
  | p0 :: rest => createHighlights_loop rest p0 p0 (p0 + 1) []
  end.

(** What the matching loop of [fuzzyScore] leaves behind. *)
Record fuzzyWalk : Type := mkFuzzyWalk {
  unmatched : list rune;          (* queryRunes[queryPos:] *)
  totalScore : Q;
  matchedPositions : list Z
}.

(** The loop [for queryPos < len(queryRunes) && targetPos < len(targetRunes)]:
    [queryRunes] and [targetRunes] are the parts of the two slices from
    [queryPos] and [targetPos] on. *)
Fixpoint fuzzyLoop (queryRunes targetRunes : list rune)
    (targetPos consecutiveMatches : Z) (total : Q) (matched : list Z)
    : fuzzyWalk :=
  match queryRunes, targetRunes with
  | [], _ => mkFuzzyWalk [] total matched
  | _ :: _, [] => mkFuzzyWalk queryRunes total matched
  | q :: queryRest, t :: targetRest =>
      if Ascii.eqb q t then
        let consecutiveMatches := consecutiveMatches + 1 in
        let charScore := (2 + inject_Z consecutiveMatches * (1 # 2))%Q in
        fuzzyLoop queryRest targetRest (targetPos + 1) consecutiveMatches
          (total + charScore)%Q (matched ++ [targetPos])
      else
        fuzzyLoop queryRunes targetRest (targetPos + 1) 0 total matched
  end.

Definition fuzzyScore (e : Engine) (query target originalTarget : string)
    : Q * list HighlightRange :=
  if (len query =? 0) || (len target =? 0) then (0%Q, [])
  else
    let queryRunes := runes query in
    let targetRunes := runes target in
    let originalRunes := runes originalTarget in
    let w := fuzzyLoop queryRunes targetRunes 0 0 0%Q [] in
    match unmatched w with
    | _ :: _ => (0%Q, [])
    | [] =>
        let matchRatio :=
          (inject_Z (llen (matchedPositions w)) / inject_Z (llen queryRunes))%Q in
        let lengthRatio :=
          (inject_Z (llen queryRunes) / inject_Z (llen targetRunes))%Q in
        let finalScore := (totalScore w * matchRatio * lengthRatio * 20)%Q in
        let finalScore := if Qltb finalScore 10 then 10%Q else finalScore in
        let highlights :=
          if 0 <? llen (matchedPositions w)
          then createHighlights (matchedPositions w) originalRunes
          else [] in
        (finalScore, highlights)
    end.

Definition scoreMatch (e : Engine) (query target : string)
    : Q * list HighlightRange :=
  let queryNorm := normalizeString e query in
  let targetNorm := normalizeString e target in
  if (queryNorm =? targetNorm)%string then
    (100%Q, [ {| Start := 0; End := len target |} ])
  else if HasPrefix targetNorm queryNorm then
    (90%Q, [ {| Start := 0; End := len query |} ])
  else
    let idx := Index targetNorm queryNorm in
    if 0 <=? idx then
      let highlights := [ {| Start := idx; End := idx + len query |} ] in
      let score := (80 - inject_Z idx * 2)%Q in
      let score := if Qltb score 50 then 50%Q else score in
      (score, highlights)
    else
      let '(score, highlights) := fuzzyScore e queryNorm targetNorm target in
      if Qltb 0 score then (score, highlights) else (0%Q, []).

Inductive MatchQuality : Type :=
| ExactMatch
| PrefixMatch
| SubstringMatch
| FuzzyMatch
| NoMatch.

Definition GetMatchQuality (e : Engine) (query target : string) : MatchQuality :=
  let queryNorm := normalizeString e query in
  let targetNorm := normalizeString e target in
  if (queryNorm =? targetNorm)%string then ExactMatch
  else if HasPrefix targetNorm queryNorm then PrefixMatch
  else if Contains targetNorm queryNorm then SubstringMatch
  else if Qltb 0 (fst (fuzzyScore e queryNorm targetNorm target)) then FuzzyMatch
  else NoMatch.

(** ** Sorting: the contract of [sort.Slice] *)

(** "Less must describe a transitive ordering": irreflexive, transitive,
    and with a transitive "neither is less" relation. *)
Definition strict_weak_ordering {A : Type} (less : A -> A -> bool) : Prop :=
  (forall x, less x x = false) /\
  (forall x y z, less x y = true -> less y z = true -> less x z = true) /\
  (forall x y z, less x y = false -> less y z = false -> less x z = false).

(** No element is less than one placed before it. *)
Definition sorted_by {A : Type} (less : A -> A -> bool) (l : list A) : Prop :=
  StronglySorted (fun a b => less b a = false) l.

Class SliceSorter : Type := {
  sort_Slice : forall {A : Type}, (A -> A -> bool) -> list A -> list A;
  sort_Slice_perm :
    forall (A : Type) (less : A -> A -> bool) (l : list A),
      Permutation l (sort_Slice less l);
  sort_Slice_sorted :
    forall (A : Type) (less : A -> A -> bool) (l : list A),
      strict_weak_ordering less -> sorted_by less (sort_Slice less l)
}.

(** Insertion sort, the sorter used to run the model. *)
Fixpoint insert_by {A : Type} (less : A -> A -> bool) (x : A) (l : list A)
    : list A :=
  match l with
  | [] => [x]
  | y :: l' => if less x y then x :: y :: l' else y :: insert_by less x l'
  end.

Fixpoint insertion_sort {A : Type} (less : A -> A -> bool) (l : list A)
    : list A :=
  match l with
  | [] => []
  | x :: l' => insert_by less x (insertion_sort less l')
  end.

(** ** The engine *)

Section EngineModel.

Context {sorter : SliceSorter}.

Definition limitResults (e : Engine) (results : list MatchResult)
    : result (list MatchResult) :=
  if llen results <=? maxResults e then Returned results
  else slice_to results (maxResults e).

(** The comparison closure handed to [sort.Slice] in [Search]. *)
Definition less (e : Engine) (query : string) (mi mj : MatchResult) : bool :=
  if negb (Qeq_bool (Score mi) (Score mj)) then Qltb (Score mj) (Score mi)
  else
    let iKey := normalizeString e (Key (Result mi)) in
    let jKey := normalizeString e (Key (Result mj)) in
    let queryNorm := normalizeString e query in
    let iStartsWith := HasPrefix iKey queryNorm in
    let jStartsWith := HasPrefix jKey queryNorm in
    if negb (Bool.eqb iStartsWith jStartsWith) then iStartsWith
    else String.ltb iKey jKey.

(** The scoring loop of [Search]: [matches] after ranging over [secrets]. *)
Fixpoint scoreSecrets (e : Engine) (query : string)
    (secrets : list SearchResult) : list MatchResult :=
  match secrets with
  | [] => []
  | secret :: rest =>
      let '(score, highlights) := scoreMatch e query (Key secret) in
      if Qltb 0 score then
        {| Result := secret;
           Score := score;
           Highlights := if highlightMatches e then highlights else [] |}
        :: scoreSecrets e query rest
      else scoreSecrets e query rest
  end.

Definition Search (e : Engine) (query : string) (secrets : list SearchResult)
    : result (list MatchResult) :=
  if len query =? 0 then
    limitResults e
      (map (fun secret =>
              {| Result := secret; Score := 0%Q; Highlights := [] |}) secrets)
  else
    let matches := scoreSecrets e query secrets in
    limitResults e (sort_Slice (less e query) matches).

(** [SearchInteractive] sets the cap on the engine itself, searches and
    puts the old cap back.  The restore is not deferred, so a panic of
    [Search] leaves the engine with the cap of the call: the pair is the
    outcome of the call and the engine it leaves behind. *)
Definition SearchInteractive (e : Engine) (query : string)
    (secrets : list SearchResult) (maxResults' : Z)
    : result (list MatchResult) * Engine :=
  let oldMax := maxResults e in
  let e := SetMaxResults e maxResults' in
  match Search e query secrets with
  | Returned results =>
      let e := SetMaxResults e oldMax in
      (Returned results, e)
  | Panicked => (Panicked, e)
  end.

(** ** The interactive session *)

Definition MaxDisplayResults : Z := 5.

(** [InteractiveSearch] without its [styles]. *)
Record InteractiveSearch : Type := mkInteractiveSearch {
  engine : Engine;
  secrets : list SearchResult;
  results : list MatchResult;
  query : string;
  selected : Z;
  active : bool
}.

Definition NewInteractiveSearch (secrets : list SearchResult)
    : InteractiveSearch :=
  let engine := NewEngine in
  let engine := SetMaxResults engine (MaxDisplayResults * 2) in
  {| engine := engine;
     secrets := secrets;
     results := [];
     query := EmptyString;
     selected := 0;
     active := true |}.

Definition set_query (s : InteractiveSearch) (q : string) : InteractiveSearch :=
  {| engine := engine s; secrets := secrets s; results := results s;
     query := q; selected := selected s; active := active s |}.

Definition set_selected (s : InteractiveSearch) (i : Z) : InteractiveSearch :=
  {| engine := engine s; secrets := secrets s; results := results s;
     query := query s; selected := i; active := active s |}.

Definition set_results (s : InteractiveSearch) (r : list MatchResult)
    : InteractiveSearch :=
  {| engine := engine s; secrets := secrets s; results := r;
     query := query s; selected := selected s; active := active s |}.

Definition updateResults (s : InteractiveSearch) : result InteractiveSearch :=
  allResults <- Search (engine s) (query s) (secrets s) ;;
  let displayCount := MaxDisplayResults in
  let displayCount :=
    if llen allResults <? displayCount then llen allResults else displayCount in
  visible <- slice_to allResults displayCount ;;
  let s := set_results s visible in
  let s :=
    if selected s >=? llen (results s)
    then set_selected s (llen (results s) - 1) else s in
  let s :=
    if (selected s <? 0) && (llen (results s) >? 0)
    then set_selected s 0 else s in
  Returned s.

Definition AddChar (s : InteractiveSearch) (ch : ascii)
    : result InteractiveSearch :=
  let s := set_query s (query s ++ string_of_byte ch)%string in
  s <- updateResults s ;;
  Returned (set_selected s 0).

Definition RemoveChar (s : InteractiveSearch) : result InteractiveSearch :=
  if len (query s) >? 0 then
    let s :=
      set_query s (String.substring 0 (String.length (query s) - 1) (query s)) in
    s <- updateResults s ;;
    Returned (set_selected s 0)
  else Returned s.

Definition MoveSelection (s : InteractiveSearch) (direction : Z)
    : InteractiveSearch :=
  if llen (results s) =? 0 then s
  else
    let s := set_selected s (wrap64 (selected s + direction)) in
    if selected s <? 0 then set_selected s (llen (results s) - 1)
    else if selected s >=? llen (results s) then set_selected s 0
    else s.

Definition GetSelectedResult (s : InteractiveSearch) : option MatchResult :=
  if (llen (results s) =? 0) || (selected s <? 0)
     || (selected s >=? llen (results s))
  then None
  else nth_error (results s) (Z.to_nat (selected s)).

(** [Render], the part that counts: [totalMatches] and the [moreCount]
    of the "... and %d more results" line ([None] when no line is shown). *)
Definition Render_totalMatches (s : InteractiveSearch) : result Z :=
  all <- Search (engine s) (query s) (secrets s) ;;
  Returned (llen all).

Definition Render_moreCount (s : InteractiveSearch) : result (option Z) :=
  if llen (results s) =? 0 then Returned None
  else
    totalMatches <- Render_totalMatches s ;;
    if totalMatches >? llen (results s)
    then Returned (Some (totalMatches - llen (results s)))
    else Returned None.

(** ** The Bubble Tea model *)



(** [Model]; its field [selected] is [chosen] here, [InteractiveSearch]
    has a field of that name already. *)
Record Model : Type := mkModel {
  search : InteractiveSearch;
  quitting : bool;
  chosen : option MatchResult
}.





(** Go's [error]: [None] is [nil]. *)
Definition error : Type := option string.



Definition GetSelectedKey (m : Model) : string :=
  match chosen m with
  | Some r => Key (Result r)
  | None => EmptyString
  end.

End EngineModel.

(** ** The rest of the engine's interface *)

(** The loop of [FilterTopMatches]: [filtered] is the slice built so far. *)
Fixpoint FilterTopMatches_loop (matches filtered : list MatchResult)
    (maxResults' : Z) (minScore : Q) : list MatchResult :=
  match matches with
  | [] => filtered
  | m :: rest =>
      if Qle_bool minScore (Score m) && (llen filtered <? maxResults')
      then FilterTopMatches_loop rest (filtered ++ [m]) maxResults' minScore
      else FilterTopMatches_loop rest filtered maxResults' minScore
  end.

Definition FilterTopMatches (e : Engine) (matches : list MatchResult)
    (maxResults' : Z) (minScore : Q) : list MatchResult :=
  FilterTopMatches_loop matches [] maxResults' minScore.

(** [seen[key] = true] on a [map[string]bool]; a key that was never set
    reads as [false]. *)
Definition mark_seen (seen : string -> bool) (key : string) : string -> bool :=
  fun k => if (k =? key)%string then true else seen k.

(** The loop of [GetQuerySuggestions], with its [break]. *)
Fixpoint GetQuerySuggestions_loop (e : Engine) (queryNorm : string)
    (candidates : list SearchResult) (suggestions : list string)
    (seen : string -> bool) (maxSuggestions : Z) : list string :=
  match candidates with
  | [] => suggestions
  | secret :: rest =>
      let keyNorm := normalizeString e (Key secret) in
      let add := HasPrefix keyNorm queryNorm && negb (seen (Key secret)) in
      let suggestions :=
        if add then suggestions ++ [Key secret] else suggestions in
      let seen := if add then mark_seen seen (Key secret) else seen in
      if llen suggestions >=? maxSuggestions then suggestions
      else GetQuerySuggestions_loop e queryNorm rest suggestions seen
             maxSuggestions
  end.

Definition GetQuerySuggestions (e : Engine) (partialQuery : string)
    (candidates : list SearchResult) (maxSuggestions : Z) : list string :=
  if len partialQuery =? 0 then []
  else
    let queryNorm := normalizeString e partialQuery in
    GetQuerySuggestions_loop e queryNorm candidates [] (fun _ => false)
      maxSuggestions.

(** ** Text outside ASCII

    The definitions above read a string byte by byte.  The module [Utf8]
    holds the two library operations in full, [strings.ToLower] with the
    case table of [unicode] and the [[]rune] conversion with the decoder
    of [unicode/utf8], and on top of them the functions of the package
    that look inside a string: [normalizeString], [fuzzyScore],
    [scoreMatch], [Search] and [applyHighlights].  On strings of bytes
    below [0x80] the two readings agree ([scoreMatch_on_ascii]). *)

(** A byte as a number, and back. *)
Definition code (c : ascii) : Z := Z.of_nat (nat_of_ascii c).

Definition byte (z : Z) : ascii := ascii_of_nat (Z.to_nat z).

(** [s[lo:hi]] on a slice of capacity [cap]: Go checks the upper bound
    against the capacity, not the length, and the elements between the
    two are those of the backing array, [zero] for a slice fresh from a
    conversion. *)
Definition slice_range {A : Type} (zero : A) (cap : Z) (s : list A)
    (lo hi : Z) : result (list A) :=
  if (lo <? 0) || (hi <? lo) || (cap <? hi) then Panicked
  else
    let backing := s ++ repeat zero (Z.to_nat (cap - llen s)) in
    Returned (firstn (Z.to_nat (hi - lo)) (skipn (Z.to_nat lo) backing)).

(** [s[lo:]]: the upper bound is the length. *)
Definition slice_from {A : Type} (s : list A) (lo : Z) : result (list A) :=
  if (lo <? 0) || (llen s <? lo) then Panicked
  else Returned (skipn (Z.to_nat lo) s).

Module Utf8.

(** A [rune] is a code point. *)
Definition rune : Type := Z.

(** [utf8.RuneError], U+FFFD. *)
Definition RuneError : rune := 65533.

(** [utf8.first] with [utf8.acceptRanges]: for the first byte of a
    multi-byte sequence, the length of the sequence and the bounds of its
    second byte; [None] for a byte that starts no sequence. *)
Definition acceptRange (b0 : Z) : option (nat * Z * Z) :=
  if (194 <=? b0) && (b0 <=? 223) then Some (2%nat, 128, 191)
  else if b0 =? 224 then Some (3%nat, 160, 191)
  else if (225 <=? b0) && (b0 <=? 236) then Some (3%nat, 128, 191)
  else if b0 =? 237 then Some (3%nat, 128, 159)
  else if (238 <=? b0) && (b0 <=? 239) then Some (3%nat, 128, 191)
  else if b0 =? 240 then Some (4%nat, 144, 191)
  else if (241 <=? b0) && (b0 <=? 243) then Some (4%nat, 128, 191)
  else if b0 =? 244 then Some (4%nat, 128, 143)
  else None.

(** A continuation byte, [0x80 <= b <= 0xBF]. *)
Definition continuation (b : Z) : bool := (128 <=? b) && (b <=? 191).

(** [[]rune(s)], and the runes of [for _, r := range s]: the decoder of
    [utf8.DecodeRuneInString] applied from left to right.  A byte that
    starts no well-formed sequence gives [RuneError] and is one byte wide.
    The payload bits [b & mask] are written as differences, [b - 0xC0],
    [b - 0xE0], [b - 0xF0] and [b - 0x80], which they equal on the bytes
    accepted. *)
Fixpoint runes (s : string) : list rune :=
  match s with
  | EmptyString => []
  | String c0 s1 =>
      let b0 := code c0 in
      if b0 <? 128 then b0 :: runes s1
      else
        let invalid := RuneError :: runes s1 in
        match acceptRange b0, s1 with
        | Some (sz, lo, hi), String c1 s2 =>
            let b1 := code c1 in
            if (b1 <? lo) || (hi <? b1) then invalid
            else if (sz =? 2)%nat then
              ((b0 - 192) * 64 + (b1 - 128)) :: runes s2
            else
              match s2 with
              | String c2 s3 =>
                  let b2 := code c2 in
                  if negb (continuation b2) then invalid
                  else if (sz =? 3)%nat then
                    ((b0 - 224) * 4096 + (b1 - 128) * 64 + (b2 - 128))
                    :: runes s3
                  else
                    match s3 with
                    | String c3 s4 =>
                        let b3 := code c3 in
                        if negb (continuation b3) then invalid
                        else
                          ((b0 - 240) * 262144 + (b1 - 128) * 4096
                           + (b2 - 128) * 64 + (b3 - 128))
                          :: runes s4
                    | EmptyString => invalid
                    end
              | EmptyString => invalid
              end
        | _, _ => invalid
        end
  end.

(** [utf8.AppendRune]: the encoding of a rune; a surrogate or a value
    out of range is written as [RuneError]. *)
Definition encode3 (r : rune) : string :=
  String (byte (224 + r / 4096))
    (String (byte (128 + (r / 64) mod 64))
       (String (byte (128 + r mod 64)) EmptyString)).

Definition EncodeRune (r : rune) : string :=
  if r <? 0 then encode3 RuneError
  else if r <=? 127 then String (byte r) EmptyString
  else if r <=? 2047 then
    String (byte (192 + r / 64)) (String (byte (128 + r mod 64)) EmptyString)
  else if (1114111 <? r) || ((55296 <=? r) && (r <=? 57343)) then
    encode3 RuneError
  else if r <=? 65535 then encode3 r
  else
    String (byte (240 + r / 262144))
      (String (byte (128 + (r / 4096) mod 64))
         (String (byte (128 + (r / 64) mod 64))
            (String (byte (128 + r mod 64)) EmptyString))).

(** [string(runes)]. *)
Fixpoint string_of_runes (rs : list rune) : string :=
  match rs with
  | [] => EmptyString
  | r :: rs' => (EncodeRune r ++ string_of_runes rs')%string
  end.

(** [unicode.CaseRanges], the entries with a lower-case delta: [Shift]
    for a range whose members all move by [delta], [UpperLower] for a
    range of alternating upper-case and lower-case letters.  The simple
    lower-case mappings of the Unicode Character Database, the same in
    its versions 14.0 and 15.0. *)
Inductive CaseRange : Type :=
| Shift (lo hi delta : Z)
| UpperLower (lo hi : Z).

Definition CaseRanges : list CaseRange :=
  [ Shift 192 214 (32); Shift 216 222 (32); UpperLower 256 303
  ; Shift 304 304 (-199); UpperLower 306 311; UpperLower 313 328
  ; UpperLower 330 375; Shift 376 376 (-121); UpperLower 377 382
  ; Shift 385 385 (210); UpperLower 386 389; Shift 390 390 (206)
  ; Shift 391 391 (1); Shift 393 394 (205); Shift 395 395 (1)
  ; Shift 398 398 (79); Shift 399 399 (202); Shift 400 400 (203)
  ; Shift 401 401 (1); Shift 403 403 (205); Shift 404 404 (207)
  ; Shift 406 406 (211); Shift 407 407 (209); Shift 408 408 (1)
  ; Shift 412 412 (211); Shift 413 413 (213); Shift 415 415 (214)
  ; UpperLower 416 421; Shift 422 422 (218); Shift 423 423 (1)
  ; Shift 425 425 (218); Shift 428 428 (1); Shift 430 430 (218)
  ; Shift 431 431 (1); Shift 433 434 (217); UpperLower 435 438
  ; Shift 439 439 (219); Shift 440 440 (1); Shift 444 444 (1)
  ; Shift 452 452 (2); Shift 453 453 (1); Shift 455 455 (2)
  ; Shift 456 456 (1); Shift 458 458 (2); UpperLower 459 476
  ; UpperLower 478 495; Shift 497 497 (2); UpperLower 498 501
  ; Shift 502 502 (-97); Shift 503 503 (-56); UpperLower 504 543
  ; Shift 544 544 (-130); UpperLower 546 563; Shift 570 570 (10795)
  ; Shift 571 571 (1); Shift 573 573 (-163); Shift 574 574 (10792)
  ; Shift 577 577 (1); Shift 579 579 (-195); Shift 580 580 (69)
  ; Shift 581 581 (71); UpperLower 582 591; UpperLower 880 883
  ; Shift 886 886 (1); Shift 895 895 (116); Shift 902 902 (38)
  ; Shift 904 906 (37); Shift 908 908 (64); Shift 910 911 (63)
  ; Shift 913 929 (32); Shift 931 939 (32); Shift 975 975 (8)
  ; UpperLower 984 1007; Shift 1012 1012 (-60); Shift 1015 1015 (1)
  ; Shift 1017 1017 (-7); Shift 1018 1018 (1); Shift 1021 1023 (-130)
  ; Shift 1024 1039 (80); Shift 1040 1071 (32); UpperLower 1120 1153
  ; UpperLower 1162 1215; Shift 1216 1216 (15); UpperLower 1217 1230
  ; UpperLower 1232 1327; Shift 1329 1366 (48); Shift 4256 4293 (7264)
  ; Shift 4295 4295 (7264); Shift 4301 4301 (7264); Shift 5024 5103 (38864)
  ; Shift 5104 5109 (8); Shift 7312 7354 (-3008); Shift 7357 7359 (-3008)
  ; UpperLower 7680 7829; Shift 7838 7838 (-7615); UpperLower 7840 7935
  ; Shift 7944 7951 (-8); Shift 7960 7965 (-8); Shift 7976 7983 (-8)
  ; Shift 7992 7999 (-8); Shift 8008 8013 (-8); Shift 8025 8025 (-8)
  ; Shift 8027 8027 (-8); Shift 8029 8029 (-8); Shift 8031 8031 (-8)
  ; Shift 8040 8047 (-8); Shift 8072 8079 (-8); Shift 8088 8095 (-8)
  ; Shift 8104 8111 (-8); Shift 8120 8121 (-8); Shift 8122 8123 (-74)
  ; Shift 8124 8124 (-9); Shift 8136 8139 (-86); Shift 8140 8140 (-9)
  ; Shift 8152 8153 (-8); Shift 8154 8155 (-100); Shift 8168 8169 (-8)
  ; Shift 8170 8171 (-112); Shift 8172 8172 (-7); Shift 8184 8185 (-128)
  ; Shift 8186 8187 (-126); Shift 8188 8188 (-9); Shift 8486 8486 (-7517)
  ; Shift 8490 8490 (-8383); Shift 8491 8491 (-8262); Shift 8498 8498 (28)
  ; Shift 8544 8559 (16); Shift 8579 8579 (1); Shift 9398 9423 (26)
  ; Shift 11264 11311 (48); Shift 11360 11360 (1)
  ; Shift 11362 11362 (-10743); Shift 11363 11363 (-3814)
  ; Shift 11364 11364 (-10727); UpperLower 11367 11372
  ; Shift 11373 11373 (-10780); Shift 11374 11374 (-10749)
  ; Shift 11375 11375 (-10783); Shift 11376 11376 (-10782)
  ; Shift 11378 11378 (1); Shift 11381 11381 (1); Shift 11390 11391 (-10815)
  ; UpperLower 11392 11491; UpperLower 11499 11502; Shift 11506 11506 (1)
  ; UpperLower 42560 42605; UpperLower 42624 42651; UpperLower 42786 42799
  ; UpperLower 42802 42863; UpperLower 42873 42876
  ; Shift 42877 42877 (-35332); UpperLower 42878 42887
  ; Shift 42891 42891 (1); Shift 42893 42893 (-42280)
  ; UpperLower 42896 42899; UpperLower 42902 42921
  ; Shift 42922 42922 (-42308); Shift 42923 42923 (-42319)
  ; Shift 42924 42924 (-42315); Shift 42925 42925 (-42305)
  ; Shift 42926 42926 (-42308); Shift 42928 42928 (-42258)
  ; Shift 42929 42929 (-42282); Shift 42930 42930 (-42261)
  ; Shift 42931 42931 (928); UpperLower 42932 42947; Shift 42948 42948 (-48)
  ; Shift 42949 42949 (-42307); Shift 42950 42950 (-35384)
  ; UpperLower 42951 42954; Shift 42960 42960 (1); UpperLower 42966 42969
  ; Shift 42997 42997 (1); Shift 65313 65338 (32); Shift 66560 66599 (40)
  ; Shift 66736 66771 (40); Shift 66928 66938 (39); Shift 66940 66954 (39)
  ; Shift 66956 66962 (39); Shift 66964 66965 (39); Shift 68736 68786 (64)
  ; Shift 71840 71871 (32); Shift 93760 93791 (32); Shift 125184 125217 (34) ].

(** [unicode.To(unicode.LowerCase, r)] on [CaseRanges]. *)
Fixpoint to_lower (ranges : list CaseRange) (r : rune) : rune :=
  match ranges with
  | [] => r
  | Shift lo hi delta :: rest =>
      if (lo <=? r) && (r <=? hi) then r + delta else to_lower rest r
  | UpperLower lo hi :: rest =>
      if (lo <=? r) && (r <=? hi)
      then (if Z.even (r - lo) then r + 1 else r)
      else to_lower rest r
  end.

(** [unicode.ToLower]. *)
Definition unicode_ToLower (r : rune) : rune :=
  if r <=? 127 then (if (65 <=? r) && (r <=? 90) then r + 32 else r)
  else to_lower CaseRanges r.

(** No byte of [s] is [utf8.RuneSelf] or above. *)
Fixpoint isASCII (s : string) : bool :=
  match s with
  | EmptyString => true
  | String c s' => (code c <? 128) && isASCII s'
  end.

(** [strings.Map]: the encodings of the mapped runes of [s]; a negative
    rune is dropped.  (The library returns [s] itself when nothing
    changes, which for well-formed text is the same string.) *)
Definition Map (mapping : rune -> rune) (s : string) : string :=
  string_of_runes (filter (fun r => 0 <=? r) (map mapping (runes s))).

(** [strings.ToLower]: the byte loop on ASCII text, [Map] otherwise. *)
Definition ToLower (s : string) : string :=
  if isASCII s then ToLower s else Map unicode_ToLower s.

Definition normalizeString (e : Engine) (s : string) : string :=
  if caseSensitive e then s else ToLower s.

Definition createHighlights (positions : list Z) (original : list rune)
    : list HighlightRange :=
  match positions with
  | [] => []
  | p0 :: rest => createHighlights_loop rest p0 p0 (p0 + 1) []
  end.

Record fuzzyWalk : Type := mkFuzzyWalk {
  unmatched : list rune;          (* queryRunes[queryPos:] *)
  totalScore : Q;
  matchedPositions : list Z
}.

Fixpoint fuzzyLoop (queryRunes targetRunes : list rune)
    (targetPos consecutiveMatches : Z) (total : Q) (matched : list Z)
    : fuzzyWalk :=
  match queryRunes, targetRunes with
  | [], _ => mkFuzzyWalk [] total matched
  | _ :: _, [] => mkFuzzyWalk queryRunes total matched
  | q :: queryRest, t :: targetRest =>
      if q =? t then
        let consecutiveMatches := consecutiveMatches + 1 in
        let charScore := (2 + inject_Z consecutiveMatches * (1 # 2))%Q in
        fuzzyLoop queryRest targetRest (targetPos + 1) consecutiveMatches
          (total + charScore)%Q (matched ++ [targetPos])
      else
        fuzzyLoop queryRunes targetRest (targetPos + 1) 0 total matched
  end.

Definition fuzzyScore (e : Engine) (query target originalTarget : string)
    : Q * list HighlightRange :=
  if (len query =? 0) || (len target =? 0) then (0%Q, [])
  else
    let queryRunes := runes query in
    let targetRunes := runes target in
    let originalRunes := runes originalTarget in
    let w := fuzzyLoop queryRunes targetRunes 0 0 0%Q [] in
    match unmatched w with
    | _ :: _ => (0%Q, [])
    | [] =>
        let matchRatio :=
          (inject_Z (llen (matchedPositions w)) / inject_Z (llen queryRunes))%Q in
        let lengthRatio :=
          (inject_Z (llen queryRunes) / inject_Z (llen targetRunes))%Q in
        let finalScore := (totalScore w * matchRatio * lengthRatio * 20)%Q in
        let finalScore := if Qltb finalScore 10 then 10%Q else finalScore in
        let highlights :=
          if 0 <? llen (matchedPositions w)
          then createHighlights (matchedPositions w) originalRunes
          else [] in
        (finalScore, highlights)
    end.

Definition scoreMatch (e : Engine) (query target : string)
    : Q * list HighlightRange :=
  let queryNorm := normalizeString e query in
  let targetNorm := normalizeString e target in
  if (queryNorm =? targetNorm)%string then
    (100%Q, [ {| Start := 0; End := len target |} ])
  else if HasPrefix targetNorm queryNorm then
    (90%Q, [ {| Start := 0; End := len query |} ])
  else
    let idx := Index targetNorm queryNorm in
    if 0 <=? idx then
      let highlights := [ {| Start := idx; End := idx + len query |} ] in
      let score := (80 - inject_Z idx * 2)%Q in
      let score := if Qltb score 50 then 50%Q else score in
      (score, highlights)
    else
      let '(score, highlights) := fuzzyScore e queryNorm targetNorm target in
      if Qltb 0 score then (score, highlights) else (0%Q, []).

Section Engine.

Context {sorter : SliceSorter}.

Definition less (e : Engine) (query : string) (mi mj : MatchResult) : bool :=
  if negb (Qeq_bool (Score mi) (Score mj)) then Qltb (Score mj) (Score mi)
  else
    let iKey := normalizeString e (Key (Result mi)) in
    let jKey := normalizeString e (Key (Result mj)) in
    let queryNorm := normalizeString e query in
    let iStartsWith := HasPrefix iKey queryNorm in
    let jStartsWith := HasPrefix jKey queryNorm in
    if negb (Bool.eqb iStartsWith jStartsWith) then iStartsWith
    else String.ltb iKey jKey.

Fixpoint scoreSecrets (e : Engine) (query : string)
    (secrets : list SearchResult) : list MatchResult :=
  match secrets with
  | [] => []
  | secret :: rest =>
      let '(score, highlights) := scoreMatch e query (Key secret) in
      if Qltb 0 score then
        {| Result := secret;
           Score := score;
           Highlights := if highlightMatches e then highlights else [] |}
        :: scoreSecrets e query rest
      else scoreSecrets e query rest
  end.

Definition Search (e : Engine) (query : string) (secrets : list SearchResult)
    : result (list MatchResult) :=
  if len query =? 0 then
    limitResults e
      (map (fun secret =>
              {| Result := secret; Score := 0%Q; Highlights := [] |}) secrets)
  else
    let matches := scoreSecrets e query secrets in
    limitResults e (sort_Slice (less e query) matches).

End Engine.

(** The loop of [applyHighlights]: [out] is the builder, [pos] the end of
    the last range written; [render] stands for [styles.Highlight.Render]
    and [cap] for the capacity of [runes], which the language leaves to
    the runtime. *)
Fixpoint applyHighlights_loop (render : string -> string) (cap : Z)
    (text : list rune) (highlights : list HighlightRange) (pos : Z)
    (out : string) : result (Z * string) :=
  match highlights with
  | [] => Returned (pos, out)
  | highlight :: rest =>
      out <- (if Start highlight >? pos then
                before <- slice_range (0 : rune) cap text pos (Start highlight) ;;
                Returned (out ++ string_of_runes before)%string
              else Returned out) ;;
      step <- (if End highlight <=? llen text then
                 marked <- slice_range (0 : rune) cap text (Start highlight)
                             (End highlight) ;;
                 Returned (End highlight,
                           (out ++ render (string_of_runes marked))%string)
               else Returned (pos, out)) ;;
      applyHighlights_loop render cap text rest (fst step) (snd step)
  end.

Definition applyHighlights (render : string -> string) (cap : Z)
    (text : string) (highlights : list HighlightRange) : result string :=
  if llen highlights =? 0 then Returned text
  else
    let text_runes := runes text in
    step <- applyHighlights_loop render cap text_runes highlights 0
              EmptyString ;;
    if fst step <? llen text_runes then
      remaining <- slice_from text_runes (fst step) ;;
      Returned (snd step ++ string_of_runes remaining)%string
    else Returned (snd step).

End Utf8.

(** ** Keys of the vault *)

Definition MaxKeyLength : Z := 256.

Definition ErrInvalidKey : string := "invalid key format".

(** The punctuation of [isValidKeyChar]; the double quote is byte 34. *)
Definition validPunct : string :=
  (".-_:/@#$%^&*+=[]{}|\;" ++ String (byte 34) "'<>?~`")%string.

Definition isValidKeyChar (r : Utf8.rune) : bool :=
  ((97 <=? r) && (r <=? 122)) || ((65 <=? r) && (r <=? 90))
  || ((48 <=? r) && (r <=? 57))
  || existsb (fun valid => r =? valid) (Utf8.runes validPunct).

(** [validateKey] of [database], the check of [CreateSecret]. *)
Definition validateKey (key : string) : error :=
  if len key =? 0 then Some ErrInvalidKey
  else if len key >? MaxKeyLength then Some ErrInvalidKey
  else if forallb isValidKeyChar (Utf8.runes key) then None
  else Some ErrInvalidKey.

(** ** Specification vocabulary *)

(** [q] occurs in [t] as an ordered, not necessarily contiguous,
    subsequence. *)
Inductive Subsequence {A : Type} : list A -> list A -> Prop :=
| Subsequence_nil : forall t, Subsequence [] t
| Subsequence_take : forall a q t, Subsequence q t -> Subsequence (a :: q) (a :: t)
| Subsequence_skip : forall a q t, Subsequence q t -> Subsequence q (a :: t).


(** A range lies inside a label of length [n] and is not empty. *)
Definition range_in (n : Z) (h : HighlightRange) : Prop :=
  0 <= Start h /\ Start h < End h /\ End h <= n.

(** Ranges are ascending by start and do not overlap. *)
Definition ranges_ascending (hs : list HighlightRange) : Prop :=
  StronglySorted (fun a b => Start a < Start b) hs.

Definition ranges_disjoint (hs : list HighlightRange) : Prop :=
  StronglySorted (fun a b => End a <= Start b) hs.

Definition valid_highlights (label : string) (hs : list HighlightRange) : Prop :=
  Forall (range_in (len label)) hs /\ ranges_ascending hs /\ ranges_disjoint hs.

(** Positions that increase strictly, the first one at least [lo]. *)
Fixpoint increasing_from (lo : Z) (ps : list Z) : Prop :=
  match ps with
  | [] => True
  | p :: ps' => lo <= p /\ increasing_from (p + 1) ps'
  end.

(** Non-empty ranges below [n], each starting no earlier than [lo] and no
    earlier than the end of the one before. *)
Fixpoint ranges_chain (lo n : Z) (hs : list HighlightRange) : Prop :=
  match hs with
  | [] => True
  | h :: hs' =>
      lo <= Start h /\ Start h < End h /\ End h <= n /\
      ranges_chain (End h) n hs'
  end.


(** The candidates that score above zero against a query. *)
Definition matches_query (e : Engine) (query : string) (secret : SearchResult)
    : bool :=
  Qltb 0 (fst (scoreMatch e query (Key secret))).

Definition positiveCount (e : Engine) (query : string)
    (secrets : list SearchResult) : Z :=
  llen (filter (matches_query e query) secrets).

(** The candidate with nothing but its key set. *)
Definition candidate (key : string) : SearchResult :=
  {| Key := key; CreatedAt := 0; LastAccessed := 0; AccessCount := 0;
     Tags := None |}.

(** What every reachable session state satisfies: the engine keeps the
    cap of [NewInteractiveSearch], at most [MaxDisplayResults] results are
    visible, and the cursor is inside them. *)
Definition session_inv (s : InteractiveSearch) : Prop :=
  maxResults (engine s) = MaxDisplayResults * 2 /\
  llen (results s) <= MaxDisplayResults /\
  0 <= selected s /\
  (results s <> [] -> selected s < llen (results s)).

(** The candidates of the scenario of the package's tests. *)
Definition vault_candidates : list SearchResult :=
  map candidate
    ["api_key_github"; "api_key_stripe"; "database_password"; "github_token"]%string.

(** Eleven candidates, each with the prefix [a]. *)
Definition eleven_candidates : list SearchResult :=
  map candidate
    ["a0"; "a1"; "a2"; "a3"; "a4"; "a5"; "a6"; "a7"; "a8"; "a9"; "a10"]%string.

(** What the default engine finds for [github] in that vault, and a
    session that shows it. *)
Definition github_results : list MatchResult :=
  [ {| Result := candidate "github_token"; Score := 90;
       Highlights := [ {| Start := 0; End := 6 |} ] |};
    {| Result := candidate "api_key_github"; Score := 64;
       Highlights := [ {| Start := 8; End := 14 |} ] |} ].

Definition github_session : InteractiveSearch :=
  {| engine := SetMaxResults NewEngine (MaxDisplayResults * 2);
     secrets := vault_candidates;
     results := github_results;
     query := "github";
     selected := 1;
     active := true |}.

(** The Kelvin sign U+212A, whose lower-case form is the letter [k]. *)
Definition kelvin_sign : string :=
  String (byte 226) (String (byte 132) (String (byte 170) EmptyString)).

(** The operations of a session, and a session driven by a list of them. *)
Inductive SessionOp : Type :=
| OpAddChar (ch : ascii)
| OpRemoveChar
| OpMoveSelection (direction : Z).

Section SessionRuns.

Context {sorter : SliceSorter}.

Definition applyOp (s : InteractiveSearch) (op : SessionOp)
    : result InteractiveSearch :=
  match op with
  | OpAddChar ch => AddChar s ch
  | OpRemoveChar => RemoveChar s
  | OpMoveSelection direction => Returned (MoveSelection s direction)
  end.

Fixpoint applyOps (s : InteractiveSearch) (ops : list SessionOp)
    : result InteractiveSearch :=
  match ops with
  | [] => Returned s
  | op :: rest => s' <- applyOp s op ;; applyOps s' rest
  end.



End SessionRuns.


(** The number of characters a list of ranges covers. *)
Fixpoint highlighted_width (hs : list HighlightRange) : Z :=
  match hs with
  | [] => 0
  | h :: hs' => (End h - Start h) + highlighted_width hs'
  end.

(** A position lies in one of the ranges. *)
Definition highlighted (hs : list HighlightRange) (p : Z) : Prop :=
  exists h, In h hs /\ Start h <= p < End h.

(** The visible results are those of the current query: the first
    [MaxDisplayResults] of what the session's engine finds for it.  Only a
    session whose query was never edited shows nothing for the empty
    query. *)
Section SessionSync.

Context {sorter : SliceSorter}.

Definition session_sync (s : InteractiveSearch) : Prop :=
  (results s = [] /\ query s = EmptyString) \/
  exists all,
    Search (engine s) (query s) (secrets s) = Returned all /\
    results s = firstn (Z.to_nat MaxDisplayResults) all.

(** The invariant behind the next theorems: the state is in order, has
    the engine and the candidates it was made with, and shows the results
    of its query. *)
Definition session_kept (candidates : list SearchResult)
    (s : InteractiveSearch) : Prop :=
  session_inv s /\
  engine s = engine (NewInteractiveSearch candidates) /\
  secrets s = candidates /\
  session_sync s.

End SessionSync.

(** * Properties *)

(** ** Scores, strings and orderings *)

Lemma Qltb_lt x y : Qltb x y = true <-> (x < y)%Q.
Proof.
  unfold Qltb. rewrite negb_true_iff.
  split; intro H.
  - apply Qnot_le_lt. intro Hle. apply Qle_bool_iff in Hle. congruence.
  - destruct (Qle_bool y x) eqn:E; [|reflexivity].
    apply Qle_bool_iff in E. exfalso. eapply Qlt_not_le; eauto.
Qed.

Lemma Qltb_ge x y : Qltb x y = false <-> (y <= x)%Q.
Proof.
  unfold Qltb. rewrite negb_false_iff. apply Qle_bool_iff.
Qed.

Lemma llen_nonneg {A : Type} (l : list A) : 0 <= llen l.
Proof. unfold llen. lia. Qed.

Lemma len_nonneg (s : string) : 0 <= len s.
Proof. unfold len. lia. Qed.

Lemma ascii_compare_refl a : Ascii.compare a a = Eq.
Proof. unfold Ascii.compare. apply N.compare_refl. Qed.

Lemma ascii_compare_trans a b c :
  Ascii.compare a b = Lt -> Ascii.compare b c = Lt -> Ascii.compare a c = Lt.
Proof.
  unfold Ascii.compare. rewrite !N.compare_lt_iff. lia.
Qed.

Lemma string_compare_refl s : String.compare s s = Eq.
Proof.
  induction s as [|a s IH]; simpl; [reflexivity|].
  now rewrite ascii_compare_refl.
Qed.

Lemma string_compare_trans s1 :
  forall s2 s3,
    String.compare s1 s2 = Lt -> String.compare s2 s3 = Lt ->
    String.compare s1 s3 = Lt.
Proof.
  induction s1 as [|a s1 IH]; intros [|b s2] [|c s3]; simpl;
    try discriminate; try reflexivity.
  destruct (Ascii.compare a b) eqn:Eab; try discriminate;
    destruct (Ascii.compare b c) eqn:Ebc; try discriminate; intros H12 H23.
  - apply Ascii.compare_eq_iff in Eab, Ebc. subst.
    rewrite ascii_compare_refl. eauto.
  - apply Ascii.compare_eq_iff in Eab. subst. now rewrite Ebc.
  - apply Ascii.compare_eq_iff in Ebc. subst. now rewrite Eab.
  - now rewrite (ascii_compare_trans _ _ _ Eab Ebc).
Qed.

Lemma string_ltb_irrefl s : String.ltb s s = false.
Proof. unfold String.ltb. now rewrite string_compare_refl. Qed.

Lemma string_ltb_trans s1 s2 s3 :
  String.ltb s1 s2 = true -> String.ltb s2 s3 = true -> String.ltb s1 s3 = true.
Proof.
  unfold String.ltb.
  destruct (String.compare s1 s2) eqn:E12; try discriminate.
  destruct (String.compare s2 s3) eqn:E23; try discriminate.
  now rewrite (string_compare_trans _ _ _ E12 E23).
Qed.

Lemma string_ltb_false s1 s2 :
  String.ltb s1 s2 = false -> s1 = s2 \/ String.ltb s2 s1 = true.
Proof.
  unfold String.ltb. rewrite (String.compare_antisym s2 s1).
  destruct (String.compare s1 s2) eqn:E; simpl; intros H; try discriminate.
  - left. now apply String.compare_eq_iff.
  - now right.
Qed.

Lemma string_ltb_negtrans s1 s2 s3 :
  String.ltb s1 s2 = false -> String.ltb s2 s3 = false ->
  String.ltb s1 s3 = false.
Proof.
  intros H12 H23.
  destruct (String.ltb s1 s3) eqn:E13; [|reflexivity].
  destruct (string_ltb_false _ _ H12) as [->|H21]; [congruence|].
  destruct (string_ltb_false _ _ H23) as [->|H32]; [congruence|].
  pose proof (string_ltb_trans _ _ _ H32 (string_ltb_trans _ _ _ H21 E13)) as F.
  now rewrite string_ltb_irrefl in F.
Qed.

(** ** Insertion sort meets the contract of [sort.Slice] *)

Lemma insert_by_perm {A : Type} (less : A -> A -> bool) x l :
  Permutation (x :: l) (insert_by less x l).
Proof.
  induction l as [|y l IH]; simpl; [reflexivity|].
  destruct (less x y); [reflexivity|].
  rewrite perm_swap. now constructor.
Qed.

Lemma insertion_sort_perm {A : Type} (less : A -> A -> bool) l :
  Permutation l (insertion_sort less l).
Proof.
  induction l as [|x l IH]; simpl; [constructor|].
  rewrite <- insert_by_perm. now constructor.
Qed.

Lemma insert_by_sorted {A : Type} (less : A -> A -> bool) x l :
  strict_weak_ordering less ->
  sorted_by less l -> sorted_by less (insert_by less x l).
Proof.
  intros (Hirr & Htr & Hneg). unfold sorted_by.
  induction l as [|y l IH]; intros Hs; simpl.
  - repeat constructor.
  - inversion Hs as [|? ? Hl Hy]; subst.
    destruct (less x y) eqn:Exy.
    + constructor; [assumption|].
      constructor.
      * destruct (less y x) eqn:Eyx; [|reflexivity].
        pose proof (Htr _ _ _ Exy Eyx) as F. now rewrite Hirr in F.
      * rewrite Forall_forall in *. intros z Hz.
        destruct (less z x) eqn:Ezx; [|reflexivity].
        pose proof (Htr _ _ _ Ezx Exy) as F. rewrite (Hy z Hz) in F. discriminate.
    + constructor; [now apply IH|].
      rewrite Forall_forall in *. intros z Hz.
      apply (Permutation_in _ (Permutation_sym (insert_by_perm less x l))) in Hz.
      destruct Hz as [<-|Hz]; [assumption|now apply Hy].
Qed.

Lemma insertion_sort_sorted {A : Type} (less : A -> A -> bool) l :
  strict_weak_ordering less -> sorted_by less (insertion_sort less l).
Proof.
  intros Hswo. induction l as [|x l IH]; simpl.
  - constructor.
  - now apply insert_by_sorted.
Qed.

#[export] Instance insertion_sorter : SliceSorter := {|
  sort_Slice := @insertion_sort;
  sort_Slice_perm := @insertion_sort_perm;
  sort_Slice_sorted := @insertion_sort_sorted
|}.

(** ** The comparison of [Search] is a strict weak ordering *)

Lemma Qeq_bool_false_cases x y :
  Qeq_bool x y = false -> (x < y)%Q \/ (y < x)%Q.
Proof.
  intros H. apply Qeq_bool_neq in H.
  destruct (Q_dec x y) as [[Hlt|Hgt]|Heq]; [now left|now right|contradiction].
Qed.

Ltac score_cases :=
  repeat match goal with
  | H : Qeq_bool _ _ = true |- _ => apply Qeq_bool_iff in H
  | H : Qeq_bool _ _ = false |- _ =>
      apply Qeq_bool_false_cases in H; destruct H
  | H : Qltb _ _ = true |- _ => apply Qltb_lt in H
  | H : Qltb _ _ = false |- _ => apply Qltb_ge in H
  end.

Section SearchProperties.

Context {sorter : SliceSorter}.

Lemma less_strict_weak (e : Engine) (query : string) :
  strict_weak_ordering (less e query).
Proof.
  unfold strict_weak_ordering, less. repeat split.
  - intros x. rewrite Qeq_bool_refl, Bool.eqb_reflx. simpl.
    apply string_ltb_irrefl.
  - intros x y z.
    generalize (normalizeString e (Key (Result x))) as kx.
    generalize (normalizeString e (Key (Result y))) as ky.
    generalize (normalizeString e (Key (Result z))) as kz.
    generalize (normalizeString e query) as qn.
    intros qn kz ky kx.
    destruct (Qeq_bool (Score x) (Score y)) eqn:Exy;
      destruct (Qeq_bool (Score y) (Score z)) eqn:Eyz;
      destruct (Qeq_bool (Score x) (Score z)) eqn:Exz; simpl;
      intros Hxy Hyz;
      try (score_cases; solve [lra | apply Qltb_lt; lra]).
    destruct (HasPrefix kx qn), (HasPrefix ky qn), (HasPrefix kz qn);
      simpl in *; try discriminate; try reflexivity;
      eapply string_ltb_trans; eauto.
  - intros x y z.
    generalize (normalizeString e (Key (Result x))) as kx.
    generalize (normalizeString e (Key (Result y))) as ky.
    generalize (normalizeString e (Key (Result z))) as kz.
    generalize (normalizeString e query) as qn.
    intros qn kz ky kx.
    destruct (Qeq_bool (Score x) (Score y)) eqn:Exy;
      destruct (Qeq_bool (Score y) (Score z)) eqn:Eyz;
      destruct (Qeq_bool (Score x) (Score z)) eqn:Exz; simpl;
      intros Hxy Hyz;
      try (score_cases; solve [lra | apply Qltb_ge; lra]).
    destruct (HasPrefix kx qn), (HasPrefix ky qn), (HasPrefix kz qn);
      simpl in *; try discriminate; try reflexivity;
      eapply string_ltb_negtrans; eauto.
Qed.

(** ** Truncation *)

Lemma limitResults_negative (e : Engine) (l : list MatchResult) :
  maxResults e < 0 -> limitResults e l = Panicked.
Proof.
  intros Hneg. unfold limitResults, slice_to.
  pose proof (llen_nonneg l).
  destruct (llen l <=? maxResults e) eqn:E; [apply Z.leb_le in E; lia|].
  destruct (maxResults e <? 0) eqn:F; [reflexivity|].
  apply Z.ltb_ge in F. lia.
Qed.

Lemma limitResults_prefix (e : Engine) (l : list MatchResult) :
  0 <= maxResults e ->
  limitResults e l = Returned (firstn (Z.to_nat (maxResults e)) l).
Proof.
  intros Hpos. unfold limitResults, slice_to, llen.
  destruct (Z.of_nat (List.length l) <=? maxResults e) eqn:E.
  - apply Z.leb_le in E. rewrite firstn_all2; [reflexivity|lia].
  - apply Z.leb_gt in E.
    destruct (maxResults e <? 0) eqn:F; [apply Z.ltb_lt in F; lia|].
    destruct (Z.of_nat (List.length l) <? maxResults e) eqn:G;
      [apply Z.ltb_lt in G; lia|reflexivity].
Qed.

Lemma limitResults_returned (e : Engine) (l r : list MatchResult) :
  limitResults e l = Returned r ->
  0 <= maxResults e /\ r = firstn (Z.to_nat (maxResults e)) l.
Proof.
  intros H.
  destruct (Z_lt_le_dec (maxResults e) 0) as [Hneg|Hpos].
  - rewrite limitResults_negative in H by assumption. discriminate.
  - rewrite limitResults_prefix in H by assumption.
    split; [assumption|congruence].
Qed.

Lemma firstn_In {A : Type} (n : nat) (l : list A) (x : A) :
  In x (firstn n l) -> In x l.
Proof.
  intros H. rewrite <- (firstn_skipn n l). apply in_or_app. now left.
Qed.

(** C4 (the code leaves the case out).  A negative cap is stored as it
    is, and the truncation step of every later [Search] slices with it:
    the call panics, for every query and every candidate set. *)
Theorem Search_negative_maxResults_panics :
  forall (e : Engine) (p : positive) (query : string)
         (secrets : list SearchResult),
    maxResults (SetMaxResults e (Z.neg p)) = Z.neg p /\
    Search (SetMaxResults e (Z.neg p)) query secrets = Panicked.
Proof.
  intros e p query secrets. split; [reflexivity|].
  unfold Search.
  destruct (len query =? 0); apply limitResults_negative; simpl; lia.
Qed.

(** ** Strings *)

Lemma ToLower_length (s : string) :
  String.length (ToLower s) = String.length s.
Proof. induction s as [|c s IH]; simpl; congruence. Qed.

Lemma normalizeString_length (e : Engine) (s : string) :
  String.length (normalizeString e s) = String.length s.
Proof.
  unfold normalizeString. destruct (caseSensitive e);
    [reflexivity|apply ToLower_length].
Qed.

Lemma normalizeString_len (e : Engine) (s : string) :
  len (normalizeString e s) = len s.
Proof. unfold len. now rewrite normalizeString_length. Qed.

Lemma prefix_length (s1 : string) :
  forall s2, String.prefix s1 s2 = true ->
             (String.length s1 <= String.length s2)%nat.
Proof.
  induction s1 as [|a s1 IH]; intros [|b s2]; simpl; try lia; try discriminate.
  destruct (ascii_dec a b); [|discriminate].
  intros H. apply IH in H. lia.
Qed.

Lemma substring_length_le (s : string) :
  forall n m, (String.length (String.substring n m s) + n
               <= Nat.max n (String.length s))%nat.
Proof.
  induction s as [|c s IH]; intros [|n] [|m]; simpl; try lia.
  - specialize (IH 0%nat m). lia.
  - specialize (IH n 0%nat). lia.
  - specialize (IH n (S m)). lia.
Qed.

Lemma occurrence_fits (s sub : string) (idx : nat) :
  sub <> EmptyString ->
  String.substring idx (String.length sub) s = sub ->
  (idx + String.length sub <= String.length s)%nat.
Proof.
  intros Hne Hsub.
  pose proof (substring_length_le s idx (String.length sub)) as H.
  rewrite Hsub in H.
  destruct sub as [|c sub]; [congruence|]. simpl in *. lia.
Qed.



Lemma Index_nonneg_inv (s sub : string) :
  0 <= Index s sub ->
  exists idx, String.index 0 sub s = Some idx /\ Index s sub = Z.of_nat idx.
Proof.
  unfold Index. destruct (String.index 0 sub s) as [idx|]; [|lia].
  intros _. now exists idx.
Qed.

(** ** Subsequences *)







(** ** What [Search] returns *)

Lemma len_eqb_0 (s : string) : (len s =? 0) = false <-> s <> EmptyString.
Proof.
  unfold len. destruct s as [|c s].
  - simpl. split; [discriminate|congruence].
  - split; [discriminate|].
    intros _. apply Z.eqb_neq. simpl String.length. lia.
Qed.

Lemma scoreSecrets_In (e : Engine) (query : string)
    (secrets : list SearchResult) (m : MatchResult) :
  In m (scoreSecrets e query secrets) <->
  In (Result m) secrets /\
  Qltb 0 (fst (scoreMatch e query (Key (Result m)))) = true /\
  Score m = fst (scoreMatch e query (Key (Result m))) /\
  Highlights m =
    (if highlightMatches e
     then snd (scoreMatch e query (Key (Result m))) else []).
Proof.
  induction secrets as [|secret rest IH]; simpl.
  - tauto.
  - destruct (scoreMatch e query (Key secret)) as [score hl] eqn:Esc.
    destruct (Qltb 0 score) eqn:Epos; simpl; rewrite IH; split.
    + intros [<-|H]; simpl; [rewrite Esc; simpl; tauto|tauto].
    + intros ([->|Hin] & Hpos & Hsc & Hhl); [|tauto].
      left. destruct m as [r sc h]; simpl in *.
      rewrite Esc in Hsc, Hhl. simpl in *. now subst.
    + tauto.
    + intros ([->|Hin] & Hpos & Hsc & Hhl); [|tauto].
      rewrite Esc in Hpos. simpl in Hpos. congruence.
Qed.

Lemma Search_query_returned (e : Engine) (query : string)
    (secrets : list SearchResult) (res : list MatchResult) :
  query <> EmptyString ->
  Search e query secrets = Returned res ->
  0 <= maxResults e /\
  res = firstn (Z.to_nat (maxResults e))
          (sort_Slice (less e query) (scoreSecrets e query secrets)).
Proof.
  intros Hq. unfold Search.
  apply len_eqb_0 in Hq. rewrite Hq.
  apply limitResults_returned.
Qed.

Lemma Search_In_scored (e : Engine) (query : string)
    (secrets : list SearchResult) (res : list MatchResult) (m : MatchResult) :
  query <> EmptyString ->
  Search e query secrets = Returned res ->
  In m res -> In m (scoreSecrets e query secrets).
Proof.
  intros Hq Hres Hin.
  destruct (Search_query_returned _ _ _ _ Hq Hres) as [_ ->].
  apply firstn_In in Hin.
  eapply Permutation_in; [apply Permutation_sym, sort_Slice_perm|eassumption].
Qed.


Lemma substring_score_exact (idx : Z) :
  (80 - inject_Z idx * 2 == inject_Z (80 - 2 * idx))%Q.
Proof.
  unfold Qeq, Qminus, Qplus, Qmult, Qopp, inject_Z. cbn [Qnum Qden]. lia.
Qed.


(** ** Highlights *)

Lemma increasing_from_weaken (ps : list Z) (lo lo' : Z) :
  lo' <= lo -> increasing_from lo ps -> increasing_from lo' ps.
Proof. destruct ps as [|p ps]; simpl; [tauto|]. intros H [H1 H2]. split; [lia|assumption]. Qed.

Lemma ranges_chain_weaken (hs : list HighlightRange) (lo lo' n : Z) :
  lo' <= lo -> ranges_chain lo n hs -> ranges_chain lo' n hs.
Proof.
  destruct hs as [|h hs]; simpl; [tauto|].
  intros H (H1 & H2 & H3 & H4). repeat split; try assumption; lia.
Qed.

Lemma ranges_chain_lower (hs : list HighlightRange) :
  forall lo n, ranges_chain lo n hs -> Forall (fun h => lo <= Start h) hs.
Proof.
  induction hs as [|h hs IH]; intros lo n; simpl; [constructor|].
  intros (H1 & H2 & H3 & H4). constructor; [assumption|].
  apply (IH lo n). apply (ranges_chain_weaken hs (End h)); [lia|assumption].
Qed.

Lemma ranges_chain_valid (hs : list HighlightRange) :
  forall lo n,
    0 <= lo -> ranges_chain lo n hs ->
    Forall (range_in n) hs /\ ranges_ascending hs /\ ranges_disjoint hs.
Proof.
  unfold ranges_ascending, ranges_disjoint.
  induction hs as [|h hs IH]; intros lo n Hlo; simpl.
  - intros _. repeat split; constructor.
  - intros (H1 & H2 & H3 & H4).
    destruct (IH (End h) n ltac:(lia) H4) as (Hin & Hasc & Hdis).
    pose proof (ranges_chain_lower _ _ _ H4) as Hlow.
    repeat split.
    + constructor; [unfold range_in; lia|assumption].
    + constructor; [assumption|].
      eapply Forall_impl; [|exact Hlow]. simpl. intros b Hb. lia.
    + constructor; assumption.
Qed.

Lemma createHighlights_loop_acc (positions : list Z) :
  forall prev start end_ highlights,
    createHighlights_loop positions prev start end_ highlights =
    highlights ++ createHighlights_loop positions prev start end_ [].
Proof.
  induction positions as [|p rest IH]; intros prev start end_ highlights; simpl.
  - reflexivity.
  - destruct (p =? prev + 1).
    + apply IH.
    + rewrite IH. rewrite (IH p p (p + 1) [_]). now rewrite app_assoc.
Qed.

Lemma createHighlights_loop_chain (positions : list Z) (n : Z) :
  forall prev start,
    start <= prev -> prev < n ->
    increasing_from (prev + 1) positions ->
    Forall (fun p => p < n) positions ->
    ranges_chain start n
      (createHighlights_loop positions prev start (prev + 1) []).
Proof.
  induction positions as [|p rest IH]; intros prev start Hsp Hpn Hinc Hbound;
    simpl.
  - repeat split; simpl; lia.
  - destruct Hinc as [Hp Hinc]. inversion Hbound as [|? ? Hpb Hrest]; subst.
    destruct (p =? prev + 1) eqn:E.
    + apply IH; try assumption; lia.
    + rewrite createHighlights_loop_acc. simpl.
      repeat split; simpl; try lia.
      apply (ranges_chain_weaken _ p); [lia|].
      apply IH; try assumption; lia.
Qed.

Lemma createHighlights_valid (positions : list Z) (original : list rune)
    (n : Z) :
  increasing_from 0 positions ->
  Forall (fun p => p < n) positions ->
  Forall (range_in n) (createHighlights positions original) /\
  ranges_ascending (createHighlights positions original) /\
  ranges_disjoint (createHighlights positions original).
Proof.
  intros Hinc Hbound. destruct positions as [|p0 rest]; simpl.
  - repeat split; constructor.
  - destruct Hinc as [Hp Hinc]. inversion Hbound; subst.
    apply (ranges_chain_valid _ p0 n); [assumption|].
    apply createHighlights_loop_chain; try assumption; lia.
Qed.

Lemma fuzzyLoop_positions (targetRunes : list rune) :
  forall queryRunes targetPos consecutive total matched,
    exists ps,
      matchedPositions (fuzzyLoop queryRunes targetRunes targetPos
                          consecutive total matched) = matched ++ ps /\
      increasing_from targetPos ps /\
      Forall (fun p => p < targetPos + llen targetRunes) ps.
Proof.
  induction targetRunes as [|t ts IH];
    intros [|q qs] targetPos consecutive total matched;
    cbn [fuzzyLoop matchedPositions];
    try (exists []; rewrite app_nil_r; repeat split; constructor).
  assert (Hlen : llen (t :: ts) = llen ts + 1)
    by (unfold llen; simpl List.length; lia).
  rewrite Hlen.
  destruct (Ascii.eqb q t).
  - destruct (IH qs (targetPos + 1) (consecutive + 1)
                (total + (2 + inject_Z (consecutive + 1) * (1 # 2)))%Q
                (matched ++ [targetPos])) as (ps & Heq & Hinc & Hb).
    exists (targetPos :: ps). rewrite Heq, <- app_assoc.
    split; [reflexivity|]. split; [split; [lia|assumption]|].
    constructor; [pose proof (llen_nonneg ts); lia|].
    eapply Forall_impl; [|exact Hb]. cbn beta. intros; lia.
  - destruct (IH (q :: qs) (targetPos + 1) 0 total matched)
      as (ps & Heq & Hinc & Hb).
    exists ps. rewrite Heq. repeat split.
    + apply (increasing_from_weaken _ (targetPos + 1)); [lia|assumption].
    + eapply Forall_impl; [|exact Hb]. cbn beta. intros; lia.
Qed.

Lemma llen_runes (s : string) : llen (runes s) = len s.
Proof.
  unfold llen, len, runes. f_equal.
  induction s as [|c s IH]; simpl; congruence.
Qed.

Lemma valid_highlights_nil (label : string) : valid_highlights label [].
Proof. repeat split; constructor. Qed.

Lemma valid_highlights_single (label : string) (lo hi : Z) :
  0 <= lo -> lo < hi -> hi <= len label ->
  valid_highlights label [ {| Start := lo; End := hi |} ].
Proof.
  intros H1 H2 H3. unfold valid_highlights, ranges_ascending, ranges_disjoint.
  repeat split; repeat constructor; simpl; lia.
Qed.

Lemma fuzzyScore_highlights_valid (e : Engine)
    (query target original : string) :
  len target = len original ->
  valid_highlights original (snd (fuzzyScore e query target original)).
Proof.
  intros Hlen. unfold fuzzyScore.
  destruct ((len query =? 0) || (len target =? 0));
    [apply valid_highlights_nil|].
  destruct (fuzzyLoop_positions (runes target) (runes query) 0 0 0%Q [])
    as (ps & Heq & Hinc & Hb).
  destruct (unmatched (fuzzyLoop (runes query) (runes target) 0 0 0%Q []));
    [|apply valid_highlights_nil].
  cbn [snd]. rewrite Heq. simpl app.
  destruct (0 <? llen ps); [|apply valid_highlights_nil].
  apply createHighlights_valid; [assumption|].
  rewrite llen_runes, Hlen in Hb. exact Hb.
Qed.

Lemma scoreMatch_highlights_valid (e : Engine) (query target : string) :
  query <> EmptyString ->
  valid_highlights target (snd (scoreMatch e query target)).
Proof.
  intros Hq.
  assert (Hqlen : 0 < len query).
  { unfold len. destruct query; [congruence|simpl; lia]. }
  pose proof (normalizeString_len e query) as Hnq.
  pose proof (normalizeString_len e target) as Hnt.
  unfold scoreMatch.
  destruct (String.eqb_spec (normalizeString e query) (normalizeString e target))
    as [Heq|Hne].
  - cbn [snd]. apply valid_highlights_single; try lia.
    rewrite Heq in Hnq. lia.
  - unfold HasPrefix.
    destruct (String.prefix (normalizeString e query) (normalizeString e target))
      eqn:Epre.
    + cbn [snd]. apply valid_highlights_single; try lia.
      apply prefix_length in Epre. unfold len in *. lia.
    + destruct (0 <=? Index (normalizeString e target) (normalizeString e query))
        eqn:Eidx.
      * cbn [snd]. apply Z.leb_le in Eidx.
        destruct (Index_nonneg_inv _ _ Eidx) as (idx & Hidx & ->).
        apply index_correct1 in Hidx.
        apply occurrence_fits in Hidx.
        -- apply valid_highlights_single; unfold len in *; lia.
        -- intros E. rewrite E in Hnq. unfold len in *. simpl in Hnq. lia.
      * pose proof (fuzzyScore_highlights_valid e (normalizeString e query)
                      (normalizeString e target) target Hnt) as Hfz.
        destruct (fuzzyScore e (normalizeString e query)
                    (normalizeString e target) target) as [score hl].
        destruct (Qltb 0 score); [exact Hfz|apply valid_highlights_nil].
Qed.

(** ** The tiers of [scoreMatch] *)

Lemma scoreMatch_exact (e : Engine) (query target : string) :
  GetMatchQuality e query target = ExactMatch ->
  scoreMatch e query target = (100%Q, [ {| Start := 0; End := len target |} ]).
Proof.
  unfold GetMatchQuality, scoreMatch.
  destruct (normalizeString e query =? normalizeString e target)%string;
    [reflexivity|].
  destruct (HasPrefix _ _); [discriminate|].
  destruct (Contains _ _); [discriminate|].
  destruct (Qltb 0 _); discriminate.
Qed.

Lemma scoreMatch_prefix (e : Engine) (query target : string) :
  GetMatchQuality e query target = PrefixMatch ->
  scoreMatch e query target = (90%Q, [ {| Start := 0; End := len query |} ]).
Proof.
  unfold GetMatchQuality, scoreMatch.
  destruct (normalizeString e query =? normalizeString e target)%string;
    [discriminate|].
  destruct (HasPrefix _ _); [reflexivity|].
  destruct (Contains _ _); [discriminate|].
  destruct (Qltb 0 _); discriminate.
Qed.

Lemma scoreMatch_substring_bounds (e : Engine) (query target : string) :
  GetMatchQuality e query target = SubstringMatch ->
  (50 <= fst (scoreMatch e query target) <= 80)%Q.
Proof.
  unfold GetMatchQuality, scoreMatch, Contains.
  destruct (normalizeString e query =? normalizeString e target)%string;
    [discriminate|].
  destruct (HasPrefix _ _); [discriminate|].
  destruct (0 <=? Index (normalizeString e target) (normalizeString e query))
    eqn:Eidx; [|destruct (Qltb 0 _); discriminate].
  intros _. apply Z.leb_le in Eidx.
  pose proof (substring_score_exact
                (Index (normalizeString e target) (normalizeString e query)))
    as Hexact.
  destruct (Qltb (80 - inject_Z (Index (normalizeString e target)
                                   (normalizeString e query)) * 2) 50)
    eqn:Elt; cbn [fst].
  - split; [apply Qle_refl|discriminate].
  - apply Qltb_ge in Elt. split; [assumption|].
    rewrite Hexact. change 80%Q with (inject_Z 80).
    rewrite <- Zle_Qle. lia.
Qed.

Lemma scoreMatch_fuzzy_floor (e : Engine) (query target : string) :
  GetMatchQuality e query target = FuzzyMatch ->
  (10 <= fst (scoreMatch e query target))%Q.
Proof.
  unfold GetMatchQuality, scoreMatch, Contains.
  destruct (normalizeString e query =? normalizeString e target)%string;
    [discriminate|].
  destruct (HasPrefix _ _); [discriminate|].
  destruct (0 <=? Index (normalizeString e target) (normalizeString e query));
    [discriminate|].
  destruct (fuzzyScore e (normalizeString e query) (normalizeString e target)
              target) as [score hl] eqn:Efz.
  cbn [fst]. destruct (Qltb 0 score) eqn:Epos; [|discriminate].
  intros _. cbn [fst].
  unfold fuzzyScore in Efz.
  destruct ((len (normalizeString e query) =? 0)
            || (len (normalizeString e target) =? 0)).
  { inversion Efz; subst. discriminate. }
  destruct (unmatched _).
  2:{ inversion Efz; subst. discriminate. }
  match type of Efz with
  | ((if Qltb ?f 10 then _ else _), _) = _ =>
      destruct (Qltb f 10) eqn:Efl; inversion Efz; subst
  end.
  - apply Qle_refl.
  - now apply Qltb_ge in Efl.
Qed.

(** ** Ranking *)

Lemma sort_Slice_pair {A : Type} (lt : A -> A -> bool) (a b : A) :
  strict_weak_ordering lt -> lt b a = true ->
  sort_Slice lt [a; b] = [b; a].
Proof.
  intros Hswo Hba.
  pose proof (sort_Slice_perm A lt [a; b]) as Hperm.
  pose proof (sort_Slice_sorted A lt [a; b] Hswo) as Hsorted.
  apply Permutation_length_2_inv in Hperm.
  destruct Hperm as [Heq|Heq]; [|assumption].
  rewrite Heq in Hsorted. unfold sorted_by in Hsorted.
  inversion Hsorted as [|? ? _ Hall]; subst.
  inversion Hall as [|? ? Hab _]; subst. congruence.
Qed.

Lemma Search_exact_match_score (e : Engine) (query : string)
    (secrets : list SearchResult) (res : list MatchResult) (m : MatchResult) :
  query <> EmptyString ->
  Search e query secrets = Returned res ->
  In m res ->
  normalizeString e (Key (Result m)) = normalizeString e query ->
  Score m = 100%Q.
Proof.
  intros Hq Hres Hin Heq.
  apply (Search_In_scored _ _ _ _ _ Hq Hres) in Hin.
  apply scoreSecrets_In in Hin. destruct Hin as (_ & _ & -> & _).
  rewrite scoreMatch_exact; [reflexivity|].
  unfold GetMatchQuality. rewrite Heq. now rewrite String.eqb_refl.
Qed.

(** C1 (the code breaks its own rule, "exact match gets highest score").
    With the default engine, the query "abc" and the candidates "abc" and
    "axbc", the exact match scores 100, the fuzzy match "axbc" scores 120,
    no other candidate scores 100, and [Search] returns the fuzzy match
    first and the exact match second, whichever sorter is used. *)
Theorem exact_match_outranked_by_fuzzy :
  Search NewEngine "abc" [candidate "abc"; candidate "axbc"] =
  Returned
    [ {| Result := candidate "axbc";
         Score := 11520 # 96;
         Highlights := [ {| Start := 0; End := 1 |};
                         {| Start := 2; End := 4 |} ] |};
      {| Result := candidate "abc";
         Score := 100;
         Highlights := [ {| Start := 0; End := 3 |} ] |} ] /\
  (11520 # 96 == 120)%Q /\
  GetMatchQuality NewEngine "abc" "abc" = ExactMatch /\
  GetMatchQuality NewEngine "abc" "axbc" = FuzzyMatch.
Proof.
  split; [|repeat split; reflexivity].
  unfold Search.
  change (len "abc" =? 0) with false. cbv iota.
  change (scoreSecrets NewEngine "abc" [candidate "abc"; candidate "axbc"])
    with
    [ {| Result := candidate "abc";
         Score := 100;
         Highlights := [ {| Start := 0; End := 3 |} ] |};
      {| Result := candidate "axbc";
         Score := 11520 # 96;
         Highlights := [ {| Start := 0; End := 1 |};
                         {| Start := 2; End := 4 |} ] |} ].
  rewrite sort_Slice_pair;
    [reflexivity|apply less_strict_weak|reflexivity].
Qed.

(** ** How many results [Search] returns *)

Lemma llen_firstn {A : Type} (n : Z) (l : list A) :
  0 <= n -> llen (firstn (Z.to_nat n) l) = Z.min n (llen l).
Proof. intros Hn. unfold llen. rewrite length_firstn. lia. Qed.

Lemma scoreSecrets_length (e : Engine) (query : string)
    (secrets : list SearchResult) :
  llen (scoreSecrets e query secrets) = positiveCount e query secrets.
Proof.
  unfold positiveCount, llen. f_equal.
  induction secrets as [|secret rest IH]; simpl; [reflexivity|].
  unfold matches_query at 1.
  destruct (scoreMatch e query (Key secret)) as [score hl]. cbn [fst].
  destruct (Qltb 0 score); simpl; congruence.
Qed.

Lemma matches_query_empty (e : Engine) (secret : SearchResult) :
  matches_query e EmptyString secret = true.
Proof.
  unfold matches_query, scoreMatch.
  replace (normalizeString e EmptyString) with EmptyString
    by (unfold normalizeString; destruct (caseSensitive e); reflexivity).
  destruct (EmptyString =? normalizeString e (Key secret))%string;
    [reflexivity|].
  unfold HasPrefix.
  destruct (normalizeString e (Key secret)); reflexivity.
Qed.

Lemma positiveCount_empty_query (e : Engine) (secrets : list SearchResult) :
  positiveCount e EmptyString secrets = llen secrets.
Proof.
  unfold positiveCount. f_equal.
  induction secrets as [|secret rest IH]; simpl; [reflexivity|].
  rewrite matches_query_empty. now f_equal.
Qed.

Lemma Search_returns (e : Engine) (query : string)
    (secrets : list SearchResult) :
  0 <= maxResults e ->
  exists all,
    Search e query secrets = Returned all /\
    llen all = Z.min (maxResults e) (positiveCount e query secrets).
Proof.
  intros Hcap. unfold Search.
  destruct (len query =? 0) eqn:Eq.
  - assert (query = EmptyString) as ->.
    { destruct (string_dec query EmptyString) as [|Hne]; [assumption|].
      apply len_eqb_0 in Hne. congruence. }
    rewrite limitResults_prefix by assumption.
    eexists. split; [reflexivity|].
    rewrite llen_firstn by assumption.
    rewrite positiveCount_empty_query. unfold llen. now rewrite length_map.
  - rewrite limitResults_prefix by assumption.
    eexists. split; [reflexivity|].
    rewrite llen_firstn by assumption.
    rewrite <- scoreSecrets_length. unfold llen.
    now rewrite <- (Permutation_length (sort_Slice_perm _ _ _)).
Qed.

(** ** The session *)

Lemma updateResults_returns (s : InteractiveSearch) :
  0 <= maxResults (engine s) ->
  exists all sel,
    Search (engine s) (query s) (secrets s) = Returned all /\
    updateResults s =
      Returned {| engine := engine s; secrets := secrets s;
                  results := firstn (Z.to_nat MaxDisplayResults) all;
                  query := query s; selected := sel; active := active s |}.
Proof.
  intros Hcap.
  destruct (Search_returns (engine s) (query s) (secrets s) Hcap)
    as (all & Hall & _).
  exists all. unfold updateResults. rewrite Hall. cbn [bind].
  assert (Hvis :
    slice_to all (if llen all <? MaxDisplayResults
                  then llen all else MaxDisplayResults)
    = Returned (firstn (Z.to_nat MaxDisplayResults) all)).
  { unfold slice_to, MaxDisplayResults. pose proof (llen_nonneg all) as Hn.
    destruct (llen all <? 5) eqn:E.
    - apply Z.ltb_lt in E.
      replace (llen all <? 0) with false by (symmetry; apply Z.ltb_ge; lia).
      rewrite Z.ltb_irrefl. cbn [orb]. f_equal.
      unfold llen in *. rewrite Nat2Z.id.
      rewrite firstn_all. rewrite firstn_all2; [reflexivity|lia].
    - apply Z.ltb_ge in E.
      replace (llen all <? 5) with false by (symmetry; apply Z.ltb_ge; lia).
      reflexivity. }
  rewrite Hvis. cbn [bind].
  unfold set_results, set_selected. cbn [selected results engine secrets query active].
  destruct (selected s >=? _); cbn [selected results engine secrets query active];
    destruct ((_ <? 0) && _);
    cbn [selected results engine secrets query active];
    eexists; split; reflexivity.
Qed.

Lemma AddChar_returns (s : InteractiveSearch) (ch : ascii) :
  0 <= maxResults (engine s) ->
  exists all,
    Search (engine s) (query s ++ string_of_byte ch) (secrets s)
      = Returned all /\
    AddChar s ch =
      Returned {| engine := engine s; secrets := secrets s;
                  results := firstn (Z.to_nat MaxDisplayResults) all;
                  query := (query s ++ string_of_byte ch)%string;
                  selected := 0; active := active s |}.
Proof.
  intros Hcap. unfold AddChar.
  destruct (updateResults_returns
              (set_query s (query s ++ string_of_byte ch)) Hcap)
    as (all & sel & Hall & Hupd).
  exists all. split; [exact Hall|].
  rewrite Hupd. reflexivity.
Qed.

Lemma RemoveChar_returns (s : InteractiveSearch) :
  0 <= maxResults (engine s) ->
  query s <> EmptyString ->
  exists all,
    Search (engine s)
      (String.substring 0 (String.length (query s) - 1) (query s))
      (secrets s) = Returned all /\
    RemoveChar s =
      Returned {| engine := engine s; secrets := secrets s;
                  results := firstn (Z.to_nat MaxDisplayResults) all;
                  query := String.substring 0 (String.length (query s) - 1)
                             (query s);
                  selected := 0; active := active s |}.
Proof.
  intros Hcap Hq. unfold RemoveChar.
  replace (len (query s) >? 0) with true.
  2:{ symmetry. apply Z.gtb_lt. unfold len.
      destruct (query s); [congruence|simpl; lia]. }
  destruct (updateResults_returns
              (set_query s (String.substring 0 (String.length (query s) - 1)
                              (query s))) Hcap)
    as (all & sel & Hall & Hupd).
  exists all. split; [exact Hall|].
  rewrite Hupd. reflexivity.
Qed.

Lemma RemoveChar_empty (s : InteractiveSearch) :
  query s = EmptyString -> RemoveChar s = Returned s.
Proof. intros Hq. unfold RemoveChar. now rewrite Hq. Qed.

Lemma firstn_display_length (all : list MatchResult) :
  llen (firstn (Z.to_nat MaxDisplayResults) all) <= MaxDisplayResults.
Proof.
  rewrite llen_firstn by (unfold MaxDisplayResults; lia). lia.
Qed.

Lemma llen_pos {A : Type} (l : list A) : l <> [] -> 0 < llen l.
Proof. destruct l; [congruence|]. unfold llen. simpl. lia. Qed.

Lemma session_inv_reset (s : InteractiveSearch) (all : list MatchResult)
    (q : string) :
  session_inv s ->
  session_inv {| engine := engine s; secrets := secrets s;
                 results := firstn (Z.to_nat MaxDisplayResults) all;
                 query := q; selected := 0; active := active s |}.
Proof.
  intros (Hcap & _). unfold session_inv.
  cbn [selected results engine secrets query active].
  repeat split; try assumption; try lia.
  - apply firstn_display_length.
  - apply llen_pos.
Qed.

Lemma wrap64_range (z : Z) : - 2 ^ 63 <= wrap64 z < 2 ^ 63.
Proof.
  unfold wrap64.
  pose proof (Z.mod_pos_bound (z + 2 ^ 63) (2 ^ 64) ltac:(lia)). lia.
Qed.

Lemma wrap64_small (z : Z) : - 2 ^ 63 <= z < 2 ^ 63 -> wrap64 z = z.
Proof.
  intros H. unfold wrap64. rewrite Z.mod_small; lia.
Qed.

Lemma MoveSelection_inv (s : InteractiveSearch) (direction : Z) :
  session_inv s -> session_inv (MoveSelection s direction).
Proof.
  intros (Hcap & Hlen & Hsel & Hin). unfold MoveSelection.
  destruct (llen (results s) =? 0) eqn:E; [repeat split; assumption|].
  apply Z.eqb_neq in E. pose proof (llen_nonneg (results s)) as Hn.
  unfold set_selected. cbn [selected results engine secrets query active].
  destruct (wrap64 (selected s + direction) <? 0) eqn:Eneg;
    cbn [selected results engine secrets query active].
  - repeat split; cbn [selected results engine secrets query active];
      try assumption; lia.
  - apply Z.ltb_ge in Eneg.
    destruct (wrap64 (selected s + direction) >=? llen (results s)) eqn:Ege;
      cbn [selected results engine secrets query active].
    + repeat split; cbn [selected results engine secrets query active];
        try assumption; lia.
    + rewrite Z.geb_leb in Ege. apply Z.leb_gt in Ege.
      repeat split; cbn [selected results engine secrets query active];
        try assumption; lia.
Qed.

Lemma NewInteractiveSearch_inv (secrets : list SearchResult) :
  session_inv (NewInteractiveSearch secrets).
Proof.
  unfold session_inv, NewInteractiveSearch, MaxDisplayResults, llen. simpl.
  repeat split; try lia. congruence.
Qed.

Lemma session_inv_cap (s : InteractiveSearch) :
  session_inv s -> 0 <= maxResults (engine s).
Proof. intros (Hcap & _). rewrite Hcap. unfold MaxDisplayResults. lia. Qed.

Lemma applyOp_inv (s : InteractiveSearch) (op : SessionOp) :
  session_inv s ->
  exists s', applyOp s op = Returned s' /\ session_inv s'.
Proof.
  intros Hinv. pose proof (session_inv_cap s Hinv) as Hcap.
  destruct op as [ch| |direction]; cbn [applyOp].
  - destruct (AddChar_returns s ch Hcap) as (all & _ & ->).
    eexists. split; [reflexivity|]. now apply session_inv_reset.
  - destruct (string_dec (query s) EmptyString) as [Hq|Hq].
    + rewrite RemoveChar_empty by assumption. eauto.
    + destruct (RemoveChar_returns s Hcap Hq) as (all & _ & ->).
      eexists. split; [reflexivity|]. now apply session_inv_reset.
  - eexists. split; [reflexivity|]. now apply MoveSelection_inv.
Qed.

Lemma applyOps_inv (ops : list SessionOp) :
  forall s,
    session_inv s ->
    exists s', applyOps s ops = Returned s' /\ session_inv s'.
Proof.
  induction ops as [|op rest IH]; intros s Hinv; cbn [applyOps].
  - eauto.
  - destruct (applyOp_inv s op Hinv) as (s1 & -> & Hinv1). cbn [bind].
    now apply IH.
Qed.

(** C9.  Whatever sequence of [AddChar], [RemoveChar] and [MoveSelection]
    is applied to a new session, every call returns and the state reached
    shows at most [MaxDisplayResults] = 5 results and, when it shows any,
    has [0 <= selected < len(results)]; from that state, [AddChar] and a
    [RemoveChar] that finds a query to shorten change the query and leave
    [selected] at 0. *)
Theorem session_invariant :
  forall (secrets : list SearchResult) (ops : list SessionOp),
    exists s,
      applyOps (NewInteractiveSearch secrets) ops = Returned s /\
      llen (results s) <= 5 /\
      (results s <> [] -> 0 <= selected s < llen (results s)) /\
      (forall ch, exists s',
          AddChar s ch = Returned s' /\
          query s' = (query s ++ string_of_byte ch)%string /\
          selected s' = 0) /\
      (query s <> EmptyString -> exists s',
          RemoveChar s = Returned s' /\
          query s' = String.substring 0 (String.length (query s) - 1) (query s) /\
          selected s' = 0).
Proof.
  intros secrets ops.
  destruct (applyOps_inv ops _ (NewInteractiveSearch_inv secrets))
    as (s & Hrun & Hinv).
  exists s. split; [assumption|].
  pose proof (session_inv_cap s Hinv) as Hcap.
  destruct Hinv as (_ & Hlen & Hsel & Hin).
  repeat split; try assumption.
  - now apply Hin.
  - intros ch. destruct (AddChar_returns s ch Hcap) as (all & _ & ->).
    eexists. split; [reflexivity|]. split; reflexivity.
  - intros Hq. destruct (RemoveChar_returns s Hcap Hq) as (all & _ & ->).
    eexists. split; [reflexivity|]. split; reflexivity.
Qed.

(** ** The overflow count of [Render] *)

Lemma Render_totalMatches_capped (s : InteractiveSearch) :
  session_inv s ->
  Render_totalMatches s =
    Returned (Z.min (2 * MaxDisplayResults)
                (positiveCount (engine s) (query s) (secrets s))).
Proof.
  intros Hinv. pose proof (session_inv_cap s Hinv) as Hcap.
  destruct Hinv as (Hmax & _).
  destruct (Search_returns (engine s) (query s) (secrets s) Hcap)
    as (all & Hall & Hlen).
  unfold Render_totalMatches. rewrite Hall. cbn [bind].
  rewrite Hlen, Hmax. reflexivity.
Qed.

(** ** The end of a session *)






End SearchProperties.


(** * Instances of the properties on concrete vaults

    The engine runs here with [insertion_sorter]. *)





Lemma session_invariant_witness :
  exists s,
    applyOps (NewInteractiveSearch vault_candidates)
      [OpAddChar "g"; OpMoveSelection (-1); OpAddChar "i"; OpRemoveChar;
       OpMoveSelection 1; OpMoveSelection 1]
      = Returned s /\
    llen (results s) <= 5 /\
    (results s <> [] -> 0 <= selected s < llen (results s)) /\
    (forall ch, exists s',
        AddChar s ch = Returned s' /\
        query s' = (query s ++ string_of_byte ch)%string /\
        selected s' = 0) /\
    (query s <> EmptyString -> exists s',
        RemoveChar s = Returned s' /\
        query s' = String.substring 0 (String.length (query s) - 1) (query s) /\
        selected s' = 0).
Proof.
  exact (session_invariant vault_candidates
           [OpAddChar "g"; OpMoveSelection (-1); OpAddChar "i"; OpRemoveChar;
            OpMoveSelection 1; OpMoveSelection 1]).
Defined.

(** C2 (the code has no upper bound on a fuzzy score, against
    "prioritize exact substring matches, then fuzzy matches").  With the
    default engine and the query "ab", the label "xxxxxxxxxxxxxxxab" is a
    substring match with score [max(50, 80 - 2*15) = 50], and the label
    "axb" a fuzzy match with score [5 * 1 * 2/3 * 20 = 200/3]: the fuzzy
    match scores above the substring match. *)
Theorem fuzzy_outranks_substring :
  GetMatchQuality NewEngine "ab" "xxxxxxxxxxxxxxxab" = SubstringMatch /\
  GetMatchQuality NewEngine "ab" "axb" = FuzzyMatch /\
  (fst (scoreMatch NewEngine "ab" "xxxxxxxxxxxxxxxab") == 50)%Q /\
  (fst (scoreMatch NewEngine "ab" "axb") == 200 # 3)%Q /\
  ~ (fst (scoreMatch NewEngine "ab" "axb")
     <= fst (scoreMatch NewEngine "ab" "xxxxxxxxxxxxxxxab"))%Q.
Proof.
  do 4 (split; [reflexivity|]).
  vm_compute. intros H. apply H. reflexivity.
Qed.

(** * Further properties of the engine *)

Section MoreSearchProperties.

Context {sorter : SliceSorter}.

Lemma Search_returned_cap (e : Engine) (q : string)
    (candidates : list SearchResult) (res : list MatchResult) :
  Search e q candidates = Returned res -> 0 <= maxResults e.
Proof.
  unfold Search. destruct (len q =? 0); intros H;
    apply limitResults_returned in H; tauto.
Qed.

Lemma map_Result_scoreSecrets (e : Engine) (q : string)
    (candidates : list SearchResult) :
  map Result (scoreSecrets e q candidates)
  = filter (matches_query e q) candidates.
Proof.
  induction candidates as [|c rest IH]; simpl; [reflexivity|].
  unfold matches_query at 1.
  destruct (scoreMatch e q (Key c)) as [score hl]. cbn [fst].
  destruct (Qltb 0 score); simpl; congruence.
Qed.

Lemma filter_all_true {A : Type} (f : A -> bool) (l : list A) :
  (forall x, f x = true) -> filter f l = l.
Proof.
  intros H. induction l as [|x l IH]; simpl; [reflexivity|].
  rewrite H. now f_equal.
Qed.

Lemma StronglySorted_firstn {A : Type} (R : A -> A -> Prop) (n : nat) :
  forall l, StronglySorted R l -> StronglySorted R (firstn n l).
Proof.
  induction n as [|n IH]; intros [|x l] H; simpl; try constructor.
  - apply IH. now inversion H.
  - inversion H as [|? ? _ Hall]; subst.
    rewrite Forall_forall in *. intros y Hy. apply Hall.
    eapply firstn_In; eauto.
Qed.

Lemma Search_empty_query_browses_aux (e : Engine)
    (candidates : list SearchResult) (res : list MatchResult) :
  Search e EmptyString candidates = Returned res ->
  map Result res = firstn (Z.to_nat (maxResults e)) candidates /\
  Forall (fun m => Score m = 0%Q /\ Highlights m = []) res.
Proof.
  intros H. unfold Search in H. simpl in H.
  apply limitResults_returned in H. destruct H as [_ ->]. split.
  - rewrite <- firstn_map, map_map. simpl. now rewrite map_id.
  - apply Forall_forall. intros m Hm. apply firstn_In in Hm.
    apply in_map_iff in Hm. destruct Hm as (c & <- & _). now split.
Qed.

Lemma StronglySorted_impl {A : Type} (R R' : A -> A -> Prop) (l : list A) :
  (forall a b, R a b -> R' a b) -> StronglySorted R l -> StronglySorted R' l.
Proof.
  intros Himp Hs. induction Hs as [|a l Hl IH Hall]; constructor; [exact IH|].
  eapply Forall_impl; [|exact Hall]. intros b. apply Himp.
Qed.

(** Browse mode.  With an empty query [Search] returns the candidates
    themselves, in their input order, cut to the first [maxResults], each
    with score 0 and without highlights. *)
Theorem Search_empty_query_browses :
  forall (e : Engine) (candidates : list SearchResult)
         (res : list MatchResult),
    Search e EmptyString candidates = Returned res ->
    map Result res = firstn (Z.to_nat (maxResults e)) candidates /\
    Forall (fun m => Score m = 0%Q /\ Highlights m = []) res.
Proof.
  intros e candidates res. apply Search_empty_query_browses_aux.
Qed.

(** The order of the results.  With a non-empty query, an element of the
    returned list never scores below a later one; of two elements with
    the same score, one whose normalized label starts with the normalized
    query does not come after one whose label does not; and with that
    equal too, the normalized labels ascend. *)
Theorem Search_results_ranked :
  forall (e : Engine) (q : string) (candidates : list SearchResult)
         (res : list MatchResult),
    q <> EmptyString ->
    Search e q candidates = Returned res ->
    StronglySorted
      (fun a b =>
         let ka := normalizeString e (Key (Result a)) in
         let kb := normalizeString e (Key (Result b)) in
         let qn := normalizeString e q in
         (Score b <= Score a)%Q /\
         ((Score a == Score b)%Q ->
          (HasPrefix kb qn = true -> HasPrefix ka qn = true) /\
          (HasPrefix ka qn = HasPrefix kb qn -> String.leb ka kb = true)))
      res.
Proof.
  intros e q candidates res Hq Hres.
  destruct (Search_query_returned _ _ _ _ Hq Hres) as [_ ->].
  apply StronglySorted_firstn.
  pose proof (sort_Slice_sorted _ (less e q) (scoreSecrets e q candidates)
                (less_strict_weak e q)) as Hs.
  unfold sorted_by in Hs.
  eapply StronglySorted_impl; [|exact Hs]. cbv beta zeta.
  intros a b Hba. unfold less in Hba.
  destruct (Qeq_bool (Score b) (Score a)) eqn:Eeq; cbn [negb] in Hba.
  - apply Qeq_bool_iff in Eeq. split; [rewrite Eeq; apply Qle_refl|].
    intros _.
    destruct (HasPrefix (normalizeString e (Key (Result b)))
                (normalizeString e q)) eqn:Eb;
      destruct (HasPrefix (normalizeString e (Key (Result a)))
                  (normalizeString e q)) eqn:Ea;
      cbn [Bool.eqb negb] in Hba; try discriminate;
      (split; [intros; congruence|]); intros Hsame; try discriminate;
      unfold String.ltb in Hba; unfold String.leb;
      rewrite String.compare_antisym;
      destruct (String.compare (normalizeString e (Key (Result b)))
                  (normalizeString e (Key (Result a))));
      try reflexivity; discriminate.
  - apply Qltb_ge in Hba. split; [exact Hba|].
    intros Heq. apply Qeq_bool_neq in Eeq. exfalso. apply Eeq.
    now symmetry.
Qed.

(** The number of results.  A call of [Search] that returns gives
    [min(maxResults, n)] results, [n] being the number of candidates with
    a positive score; with an empty query [n] is the number of
    candidates. *)
Theorem Search_result_count :
  forall (e : Engine) (q : string) (candidates : list SearchResult)
         (res : list MatchResult),
    Search e q candidates = Returned res ->
    llen res = Z.min (maxResults e) (positiveCount e q candidates) /\
    llen res <= maxResults e /\
    positiveCount e EmptyString candidates = llen candidates.
Proof.
  intros e q candidates res H.
  pose proof (Search_returned_cap _ _ _ _ H) as Hcap.
  destruct (Search_returns e q candidates Hcap) as (res' & H' & Hlen).
  assert (res' = res) by congruence. subst res'.
  repeat split; [assumption|lia|apply positiveCount_empty_query].
Qed.

(** When [Search] fails.  [Search] returns a list exactly when
    [maxResults] is not negative, whatever the query and the candidates,
    empty ones included. *)
Theorem Search_returns_iff_cap_nonnegative :
  forall (e : Engine) (q : string) (candidates : list SearchResult),
    (exists res, Search e q candidates = Returned res) <-> 0 <= maxResults e.
Proof.
  intros e q candidates. split.
  - intros (res & H). eapply Search_returned_cap; eauto.
  - intros Hcap. destruct (Search_returns e q candidates Hcap) as (res & H & _).
    now exists res.
Qed.

(** Nothing but matches, and all of them under the cap.  Every result is
    one of the candidates and scores above zero against the query; when
    no more candidates match than [maxResults] allows, the results are
    exactly the matching candidates, each as often as it was given. *)
Theorem Search_results_are_the_matches :
  forall (e : Engine) (q : string) (candidates : list SearchResult)
         (res : list MatchResult),
    Search e q candidates = Returned res ->
    (forall m, In m res ->
       In (Result m) candidates /\ matches_query e q (Result m) = true) /\
    (positiveCount e q candidates <= maxResults e ->
     Permutation (map Result res) (filter (matches_query e q) candidates)).
Proof.
  intros e q candidates res H.
  pose proof (Search_returned_cap _ _ _ _ H) as Hcap.
  destruct (string_dec q EmptyString) as [->|Hq].
  - assert (Hfil : filter (matches_query e EmptyString) candidates = candidates)
      by (apply filter_all_true; apply matches_query_empty).
    destruct (Search_empty_query_browses_aux e candidates res H) as [Hmap _].
    split.
    + intros m Hm. split; [|apply matches_query_empty].
      apply (in_map Result) in Hm. rewrite Hmap in Hm.
      eapply firstn_In; eauto.
    + intros Hcount. rewrite Hfil, Hmap.
      rewrite positiveCount_empty_query in Hcount.
      rewrite firstn_all2; [reflexivity|unfold llen in Hcount; lia].
  - destruct (Search_query_returned _ _ _ _ Hq H) as [_ ->]. split.
    + intros m Hm. apply firstn_In in Hm.
      apply (Permutation_in _ (Permutation_sym (sort_Slice_perm _ _ _))) in Hm.
      apply scoreSecrets_In in Hm. tauto.
    + intros Hcount. rewrite <- map_Result_scoreSecrets.
      rewrite firstn_all2.
      * apply Permutation_map, Permutation_sym, sort_Slice_perm.
      * rewrite <- (Permutation_length (sort_Slice_perm _ _ _)).
        pose proof (scoreSecrets_length e q candidates) as Hl.
        unfold llen in Hl. lia.
Qed.

(** ** The cap *)

Lemma scoreSecrets_cap (e : Engine) (k : Z) (q : string)
    (candidates : list SearchResult) :
  scoreSecrets (SetMaxResults e k) q candidates = scoreSecrets e q candidates.
Proof.
  induction candidates as [|c rest IH]; simpl; [reflexivity|].
  change (scoreMatch (SetMaxResults e k) q (Key c))
    with (scoreMatch e q (Key c)).
  destruct (scoreMatch e q (Key c)) as [score hl].
  destruct (Qltb 0 score); now rewrite IH.
Qed.

(** A smaller cap cuts, it does not reorder.  What [Search] returns under
    the cap [k] is the first [k] elements of what it returns under any
    larger cap; the other options of the engine being the same. *)
Theorem Search_smaller_cap_is_prefix :
  forall (e : Engine) (k k' : Z) (q : string)
         (candidates : list SearchResult) (res : list MatchResult),
    0 <= k <= k' ->
    Search (SetMaxResults e k') q candidates = Returned res ->
    Search (SetMaxResults e k) q candidates
    = Returned (firstn (Z.to_nat k) res).
Proof.
  intros e k k' q candidates res Hk.
  unfold Search. destruct (len q =? 0).
  - rewrite !limitResults_prefix by (simpl; lia). simpl maxResults.
    intros [= <-]. rewrite firstn_firstn. do 2 f_equal. lia.
  - rewrite !limitResults_prefix by (simpl; lia). simpl maxResults.
    rewrite !scoreSecrets_cap.
    change (less (SetMaxResults e k') q) with (less e q).
    change (less (SetMaxResults e k) q) with (less e q).
    intros [= <-]. rewrite firstn_firstn. do 2 f_equal. lia.
Qed.

(** ** Scores and match quality *)

Lemma fuzzyScore_zero_or_floor (e : Engine) (q t o : string) :
  fuzzyScore e q t o = (0%Q, []) \/ (10 <= fst (fuzzyScore e q t o))%Q.
Proof.
  unfold fuzzyScore.
  destruct ((len q =? 0) || (len t =? 0)); [now left|].
  destruct (unmatched _); [|now left].
  right. cbn [fst].
  match goal with
  | |- (10 <= if Qltb ?f 10 then _ else _)%Q => destruct (Qltb f 10) eqn:E
  end.
  - apply Qle_refl.
  - now apply Qltb_ge in E.
Qed.

Lemma GetMatchQuality_agrees_with_scoreMatch_aux :
  forall (e : Engine) (q t : string),
    (GetMatchQuality e q t = NoMatch <-> scoreMatch e q t = (0%Q, [])) /\
    (GetMatchQuality e q t = NoMatch <->
     Qltb 0 (fst (scoreMatch e q t)) = false) /\
    (GetMatchQuality e q t <> NoMatch -> (10 <= fst (scoreMatch e q t))%Q).
Proof.
  intros e q t. unfold GetMatchQuality, scoreMatch, Contains.
  destruct (normalizeString e q =? normalizeString e t)%string.
  { cbn [fst]. repeat split; try discriminate. }
  destruct (HasPrefix _ _).
  { cbn [fst]. repeat split; try discriminate. }
  destruct (0 <=? Index (normalizeString e t) (normalizeString e q)).
  { cbn [fst].
    destruct (Qltb (80 - inject_Z (Index (normalizeString e t)
                                     (normalizeString e q)) * 2) 50) eqn:E.
    - repeat split; try discriminate.
    - apply Qltb_ge in E. repeat split; try discriminate.
      + intros H. apply Qltb_ge in H. exfalso.
        apply (Qle_not_lt _ _ (Qle_trans _ _ _ E H)). reflexivity.
      + intros _. eapply Qle_trans; [|exact E]. discriminate. }
  destruct (fuzzyScore_zero_or_floor e (normalizeString e q)
              (normalizeString e t) t) as [Hz|Hfl].
  - rewrite Hz. cbn [fst]. change (Qltb 0 0) with false. cbn [fst].
    repeat split; try reflexivity. intros H. now contradiction H.
  - destruct (fuzzyScore e (normalizeString e q) (normalizeString e t) t)
      as [score hl]. cbn [fst] in *.
    assert (Hpos : Qltb 0 score = true).
    { apply Qltb_lt. eapply Qlt_le_trans; [|exact Hfl]. reflexivity. }
    rewrite Hpos. cbn [fst]. rewrite Hpos.
    split; [split; [discriminate|intros [= -> _]; discriminate]|].
    split; [split; discriminate|]. intros _. exact Hfl.
Qed.


(** The classes of [GetMatchQuality] and the scores of [scoreMatch] fit
    together: the class is [NoMatch] exactly when [scoreMatch] returns
    score 0 and no highlights, which is when [Search] drops the label;
    every other class comes with a score of at least 10. *)
Theorem GetMatchQuality_agrees_with_scoreMatch :
  forall (e : Engine) (q t : string),
    (GetMatchQuality e q t = NoMatch <-> scoreMatch e q t = (0%Q, [])) /\
    (GetMatchQuality e q t = NoMatch <->
     Qltb 0 (fst (scoreMatch e q t)) = false) /\
    (GetMatchQuality e q t <> NoMatch -> (10 <= fst (scoreMatch e q t))%Q).
Proof.
  exact GetMatchQuality_agrees_with_scoreMatch_aux.
Qed.

Lemma scoreMatch_positive_floor (e : Engine) (q t : string) :
  Qltb 0 (fst (scoreMatch e q t)) = true -> (10 <= fst (scoreMatch e q t))%Q.
Proof.
  intros Hpos.
  destruct (GetMatchQuality_agrees_with_scoreMatch_aux e q t) as (_ & Hno & Hfl).
  apply Hfl. intros Hq. apply Hno in Hq. congruence.
Qed.

(** No result scores between 0 and 10.  With a non-empty query every
    element of the returned list scores at least 10; the score 0 only
    appears in the results of the empty query. *)
Theorem Search_scores_at_least_10 :
  forall (e : Engine) (q : string) (candidates : list SearchResult)
         (res : list MatchResult) (m : MatchResult),
    q <> EmptyString ->
    Search e q candidates = Returned res ->
    In m res ->
    (10 <= Score m)%Q.
Proof.
  intros e q candidates res m Hq Hres Hin.
  apply (Search_In_scored _ _ _ _ _ Hq Hres) in Hin.
  apply scoreSecrets_In in Hin. destruct Hin as (_ & Hpos & -> & _).
  now apply scoreMatch_positive_floor.
Qed.

(** ** Case folding *)

Lemma createHighlights_original (positions : list Z) (o o' : list rune) :
  createHighlights positions o = createHighlights positions o'.
Proof. destruct positions; reflexivity. Qed.

Lemma fuzzyScore_original (e e' : Engine) (q t o o' : string) :
  fuzzyScore e q t o = fuzzyScore e' q t o'.
Proof.
  unfold fuzzyScore.
  destruct ((len q =? 0) || (len t =? 0)); [reflexivity|].
  destruct (unmatched _); [|reflexivity].
  now rewrite (createHighlights_original _ (runes o) (runes o')).
Qed.

Lemma ToLower_eq_len (a b : string) : ToLower a = ToLower b -> len a = len b.
Proof.
  intros H. unfold len. f_equal.
  rewrite <- (ToLower_length a), <- (ToLower_length b). now rewrite H.
Qed.

(** An engine that is not case sensitive sees queries and labels through
    [ToLower] only: two queries with the same lower-case form and two
    labels with the same lower-case form get the same score and the same
    highlights. *)
Theorem scoreMatch_ignores_case :
  forall (e : Engine) (q q' t t' : string),
    caseSensitive e = false ->
    ToLower q = ToLower q' ->
    ToLower t = ToLower t' ->
    scoreMatch e q t = scoreMatch e q' t'.
Proof.
  intros e q q' t t' Hcase Hq Ht. unfold scoreMatch, normalizeString.
  rewrite Hcase, Hq, Ht.
  rewrite (ToLower_eq_len _ _ Hq), (ToLower_eq_len _ _ Ht).
  now rewrite (fuzzyScore_original e e (ToLower q') (ToLower t') t t').
Qed.

(** ** How much is highlighted *)

Lemma highlighted_width_app (hs hs' : list HighlightRange) :
  highlighted_width (hs ++ hs') = highlighted_width hs + highlighted_width hs'.
Proof. induction hs as [|h hs IH]; simpl; [reflexivity|]. rewrite IH. lia. Qed.

Lemma createHighlights_loop_width (positions : list Z) :
  forall prev start,
    highlighted_width
      (createHighlights_loop positions prev start (prev + 1) [])
    = (prev + 1 - start) + llen positions.
Proof.
  induction positions as [|p rest IH]; intros prev start.
  - simpl. unfold llen. simpl. lia.
  - cbn [createHighlights_loop].
    assert (Hl : llen (p :: rest) = llen rest + 1)
      by (unfold llen; simpl List.length; lia).
    rewrite Hl. destruct (p =? prev + 1) eqn:E.
    + apply Z.eqb_eq in E. rewrite IH. lia.
    + rewrite createHighlights_loop_acc, highlighted_width_app, IH.
      simpl. lia.
Qed.

Lemma createHighlights_width (positions : list Z) (o : list rune) :
  highlighted_width (createHighlights positions o) = llen positions.
Proof.
  destruct positions as [|p rest]; [reflexivity|].
  cbn [createHighlights]. rewrite createHighlights_loop_width.
  unfold llen. simpl List.length. lia.
Qed.

Lemma fuzzyLoop_matched_count (targetRunes : list rune) :
  forall queryRunes targetPos consecutive total matched,
    unmatched (fuzzyLoop queryRunes targetRunes targetPos consecutive
                 total matched) = [] ->
    llen (matchedPositions
            (fuzzyLoop queryRunes targetRunes targetPos consecutive
               total matched))
    = llen matched + llen queryRunes.
Proof.
  induction targetRunes as [|t ts IH];
    intros [|c qs] targetPos consecutive total matched;
    cbn [fuzzyLoop unmatched matchedPositions];
    try discriminate; try (intros _; unfold llen; simpl; lia).
  destruct (Ascii.eqb c t); intros H.
  - rewrite (IH _ _ _ _ _ H). unfold llen. rewrite length_app. simpl. lia.
  - now rewrite (IH _ _ _ _ _ H).
Qed.

(** On single-byte text the ranges of a positive score cover exactly
    [len(query)] characters of the label. *)
Lemma scoreMatch_highlights_cover_query (e : Engine) (q t : string) :
  Qltb 0 (fst (scoreMatch e q t)) = true ->
  highlighted_width (snd (scoreMatch e q t)) = len q.
Proof.
  unfold scoreMatch.
  pose proof (normalizeString_len e q) as Hnq.
  pose proof (normalizeString_len e t) as Hnt.
  destruct (String.eqb_spec (normalizeString e q) (normalizeString e t))
    as [Heq|Hne].
  { intros _. cbn [snd highlighted_width Start End].
    rewrite Heq in Hnq. lia. }
  destruct (HasPrefix _ _).
  { intros _. cbn [snd highlighted_width Start End]. lia. }
  destruct (0 <=? Index (normalizeString e t) (normalizeString e q)).
  { intros _. cbn [snd highlighted_width Start End]. lia. }
  unfold fuzzyScore.
  destruct ((len (normalizeString e q) =? 0) || (len (normalizeString e t) =? 0));
    [discriminate|].
  pose proof (fuzzyLoop_matched_count (runes (normalizeString e t))
                (runes (normalizeString e q)) 0 0 0%Q []) as Hcount.
  destruct (unmatched _); [|discriminate].
  specialize (Hcount eq_refl).
  rewrite llen_runes, Hnq in Hcount. change (llen (@nil Z)) with 0 in Hcount.
  match goal with
  | |- context [Qltb 0 (if Qltb ?f 10 then _ else _)] =>
      destruct (Qltb 0 (if Qltb f 10 then 10%Q else f))
  end; [|discriminate].
  intros _. cbn [snd].
  destruct (0 <? llen _) eqn:E.
  - rewrite createHighlights_width. lia.
  - apply Z.ltb_ge in E. simpl.
    pose proof (llen_nonneg
      (matchedPositions
         (fuzzyLoop (runes (normalizeString e q)) (runes (normalizeString e t))
            0 0 0%Q []))). lia.
Qed.

(** ** Highlights mark the matched positions *)

Lemma createHighlights_loop_marks (positions : list Z) :
  forall prev start p,
    start <= prev ->
    (highlighted (createHighlights_loop positions prev start (prev + 1) []) p
     <-> (start <= p <= prev \/ In p positions)).
Proof.
  unfold highlighted.
  induction positions as [|p0 rest IH]; intros prev start p Hsp;
    cbn [createHighlights_loop].
  - simpl. split.
    + intros (h & [<-|[]] & Hp). simpl in Hp. left. lia.
    + intros [Hp|[]]. eexists. split; [left; reflexivity|simpl; lia].
  - destruct (p0 =? prev + 1) eqn:E.
    + apply Z.eqb_eq in E. rewrite IH by lia. simpl. split.
      * intros [H|H]; [|tauto].
        destruct (Z.eq_dec p p0); [right; left; congruence|left; lia].
      * intros [H|[H|H]]; [left; lia|left; lia|tauto].
    + rewrite createHighlights_loop_acc. simpl. split.
      * intros (h & [<-|Hh] & Hp).
        -- simpl in Hp. left. lia.
        -- assert (Hin : p0 <= p <= p0 \/ In p rest).
           { apply (IH p0 p0 p); [lia|]. eauto. }
           destruct Hin as [H|H]; [|tauto].
           right. left. lia.
      * intros [H|[H|H]].
        -- eexists. split; [left; reflexivity|simpl; lia].
        -- destruct (proj2 (IH p0 p0 p ltac:(lia))) as (h & Hh & Hp);
             [left; lia|].
           exists h. tauto.
        -- destruct (proj2 (IH p0 p0 p ltac:(lia))) as (h & Hh & Hp);
             [tauto|].
           exists h. tauto.
Qed.

(** [createHighlights] marks the given positions and nothing else.  For
    positions that are [int]s below the largest one, so that no
    [positions[i] + 1] wraps around, a position lies in one of the
    returned ranges exactly when it is in the list the ranges were made
    from. *)
Theorem createHighlights_marks_exactly_the_positions :
  forall (positions : list Z) (original : list rune) (p : Z),
    Forall (fun q => - 2 ^ 63 <= q < 2 ^ 63 - 1) positions ->
    (highlighted (createHighlights positions original) p <-> In p positions).
Proof.
  intros [|p0 rest] original p _; cbn [createHighlights].
  - unfold highlighted. simpl. split; [intros (h & [] & _)|intros []].
  - rewrite createHighlights_loop_marks by lia. simpl. split.
    + intros [H|H]; [left; lia|tauto].
    + intros [H|H]; [left; lia|tauto].
Qed.

(** ** The cursor *)

(** The cursor goes round.  In a session whose cursor is on one of its
    [N] results, [MoveSelection(1)] moves it to [(selected + 1) mod N] and
    [MoveSelection(-1)] to [(selected - 1) mod N]: past the last result
    comes the first, before the first the last; each of the two moves
    undoes the other. *)
Theorem MoveSelection_wraps_around :
  forall (s : InteractiveSearch),
    0 <= selected s < llen (results s) ->
    llen (results s) < 2 ^ 63 ->
    selected (MoveSelection s 1) = (selected s + 1) mod llen (results s) /\
    selected (MoveSelection s (-1)) = (selected s - 1) mod llen (results s) /\
    MoveSelection (MoveSelection s 1) (-1) = s /\
    MoveSelection (MoveSelection s (-1)) 1 = s.
Proof.
  intros [en se re qu sel ac]. cbn [selected results]. intros Hsel Hlen.
  assert (Hup :
    MoveSelection (mkInteractiveSearch en se re qu sel ac) 1
    = mkInteractiveSearch en se re qu
        (if sel + 1 =? llen re then 0 else sel + 1) ac).
  { unfold MoveSelection, set_selected. cbn [selected results engine secrets
      query active].
    replace (llen re =? 0) with false by (symmetry; apply Z.eqb_neq; lia).
    rewrite wrap64_small by lia.
    replace (sel + 1 <? 0) with false by (symmetry; apply Z.ltb_ge; lia).
    cbn [selected results engine secrets query active].
    rewrite Z.geb_leb.
    destruct (sel + 1 =? llen re) eqn:E.
    - apply Z.eqb_eq in E.
      replace (llen re <=? sel + 1) with true
        by (symmetry; apply Z.leb_le; lia). reflexivity.
    - apply Z.eqb_neq in E.
      replace (llen re <=? sel + 1) with false
        by (symmetry; apply Z.leb_gt; lia). reflexivity. }
  assert (Hdown :
    MoveSelection (mkInteractiveSearch en se re qu sel ac) (-1)
    = mkInteractiveSearch en se re qu
        (if sel =? 0 then llen re - 1 else sel - 1) ac).
  { unfold MoveSelection, set_selected. cbn [selected results engine secrets
      query active].
    replace (llen re =? 0) with false by (symmetry; apply Z.eqb_neq; lia).
    rewrite wrap64_small by lia.
    destruct (sel =? 0) eqn:E.
    - apply Z.eqb_eq in E. subst sel.
      cbn [selected results engine secrets query active]. reflexivity.
    - apply Z.eqb_neq in E.
      replace (sel + -1 <? 0) with false by (symmetry; apply Z.ltb_ge; lia).
      cbn [selected results engine secrets query active].
      rewrite Z.geb_leb.
      replace (llen re <=? sel + -1) with false
        by (symmetry; apply Z.leb_gt; lia).
      f_equal. }
  repeat split.
  - rewrite Hup. cbn [selected].
    destruct (sel + 1 =? llen re) eqn:E.
    + apply Z.eqb_eq in E. rewrite E. now rewrite Z.mod_same by lia.
    + apply Z.eqb_neq in E. rewrite Z.mod_small; lia.
  - rewrite Hdown. cbn [selected].
    destruct (sel =? 0) eqn:E.
    + apply Z.eqb_eq in E. subst sel.
      replace (0 - 1) with (llen re - 1 + (-1) * llen re) by lia.
      rewrite Z.mod_add by lia. rewrite Z.mod_small; lia.
    + apply Z.eqb_neq in E. rewrite Z.mod_small; lia.
  - rewrite Hup.
    destruct (sel + 1 =? llen re) eqn:E.
    + apply Z.eqb_eq in E.
      unfold MoveSelection, set_selected.
      cbn [selected results engine secrets query active].
      replace (llen re =? 0) with false by (symmetry; apply Z.eqb_neq; lia).
      rewrite wrap64_small by lia.
      cbn [selected results engine secrets query active Z.add Z.ltb Z.compare].
      f_equal. lia.
    + apply Z.eqb_neq in E.
      unfold MoveSelection, set_selected.
      cbn [selected results engine secrets query active].
      replace (llen re =? 0) with false by (symmetry; apply Z.eqb_neq; lia).
      rewrite wrap64_small by lia.
      replace (sel + 1 + -1 <? 0) with false
        by (symmetry; apply Z.ltb_ge; lia).
      cbn [selected results engine secrets query active].
      rewrite Z.geb_leb.
      replace (llen re <=? sel + 1 + -1) with false
        by (symmetry; apply Z.leb_gt; lia).
      f_equal. lia.
  - rewrite Hdown.
    destruct (sel =? 0) eqn:E.
    + apply Z.eqb_eq in E. subst sel.
      unfold MoveSelection, set_selected.
      cbn [selected results engine secrets query active].
      replace (llen re =? 0) with false by (symmetry; apply Z.eqb_neq; lia).
      rewrite wrap64_small by lia.
      replace (llen re - 1 + 1 <? 0) with false
        by (symmetry; apply Z.ltb_ge; lia).
      cbn [selected results engine secrets query active].
      rewrite Z.geb_leb.
      replace (llen re <=? llen re - 1 + 1) with true
        by (symmetry; apply Z.leb_le; lia).
      reflexivity.
    + apply Z.eqb_neq in E.
      unfold MoveSelection, set_selected.
      cbn [selected results engine secrets query active].
      replace (llen re =? 0) with false by (symmetry; apply Z.eqb_neq; lia).
      rewrite wrap64_small by lia.
      replace (sel - 1 + 1 <? 0) with false
        by (symmetry; apply Z.ltb_ge; lia).
      cbn [selected results engine secrets query active].
      rewrite Z.geb_leb.
      replace (llen re <=? sel - 1 + 1) with false
        by (symmetry; apply Z.leb_gt; lia).
      f_equal. lia.
Qed.

(** ** Editing the query *)

Lemma substring_app_prefix (a b : string) :
  String.substring 0 (String.length a) (a ++ b) = a.
Proof.
  induction a as [|c a IH]; simpl.
  - destruct b; reflexivity.
  - now rewrite IH.
Qed.

Lemma length_append (a b : string) :
  String.length (a ++ b) = (String.length a + String.length b)%nat.
Proof. induction a as [|c a IH]; simpl; [reflexivity|now rewrite IH]. Qed.

Lemma append_assoc (a b c : string) : ((a ++ b) ++ c = a ++ (b ++ c))%string.
Proof. induction a as [|x a IH]; simpl; [reflexivity|now rewrite IH]. Qed.

Lemma drop_last_byte (a : string) (c : ascii) :
  String.substring 0 (String.length (a ++ String c EmptyString) - 1)
    (a ++ String c EmptyString) = a.
Proof.
  rewrite length_append. simpl String.length.
  replace (String.length a + 1 - 1)%nat with (String.length a) by lia.
  apply substring_app_prefix.
Qed.

(** Typing a character and deleting it.  On a session whose engine has a
    non-negative cap, [AddChar(ch)] followed by [RemoveChar()] returns, and
    for [ch] below [0x80] it leaves the query as it was, with the cursor
    at 0 and the first [MaxDisplayResults] results of that query visible.
    For [ch] from [0x80] on, [string(ch)] is two bytes and [RemoveChar]
    takes one away: the first byte of the encoding stays in the query. *)
Theorem AddChar_then_RemoveChar :
  forall (s : InteractiveSearch) (ch : ascii),
    0 <= maxResults (engine s) ->
    exists s1 s2 all,
      AddChar s ch = Returned s1 /\
      RemoveChar s1 = Returned s2 /\
      Search (engine s) (query s2) (secrets s) = Returned all /\
      results s2 = firstn (Z.to_nat MaxDisplayResults) all /\
      selected s2 = 0 /\
      engine s2 = engine s /\
      secrets s2 = secrets s /\
      ((nat_of_ascii ch < 128)%nat -> query s2 = query s) /\
      ((128 <= nat_of_ascii ch)%nat ->
       query s2 =
         (query s
          ++ String (ascii_of_nat (192 + nat_of_ascii ch / 64)) EmptyString)%string).
Proof.
  intros s ch Hcap.
  destruct (AddChar_returns s ch Hcap) as (all1 & _ & Hadd).
  set (s1 := {| engine := engine s; secrets := secrets s;
                results := firstn (Z.to_nat MaxDisplayResults) all1;
                query := (query s ++ string_of_byte ch)%string;
                selected := 0; active := active s |}) in *.
  assert (Hcap1 : 0 <= maxResults (engine s1)) by exact Hcap.
  assert (Hq1 : query s1 <> EmptyString).
  { subst s1. cbn [query]. unfold string_of_byte.
    destruct (nat_of_ascii ch <? 128)%nat; destruct (query s); discriminate. }
  destruct (RemoveChar_returns s1 Hcap1 Hq1) as (all & Hall & Hrem).
  exists s1.
  exists {| engine := engine s1; secrets := secrets s1;
            results := firstn (Z.to_nat MaxDisplayResults) all;
            query := String.substring 0 (String.length (query s1) - 1)
                       (query s1);
            selected := 0; active := active s1 |}.
  exists all. split; [exact Hadd|]. split; [exact Hrem|].
  subst s1.
  cbn [query results selected engine secrets].
  split; [exact Hall|]. do 4 (split; [reflexivity|]).
  unfold string_of_byte. split; intros Hch.
  - replace (nat_of_ascii ch <? 128)%nat with true
      by (symmetry; apply Nat.ltb_lt; lia).
    apply drop_last_byte.
  - replace (nat_of_ascii ch <? 128)%nat with false
      by (symmetry; apply Nat.ltb_ge; lia).
    change (String (ascii_of_nat (192 + nat_of_ascii ch / 64))
              (String (ascii_of_nat (128 + nat_of_ascii ch mod 64)) EmptyString))
      with (String (ascii_of_nat (192 + nat_of_ascii ch / 64)) EmptyString
            ++ String (ascii_of_nat (128 + nat_of_ascii ch mod 64)) EmptyString)%string.
    rewrite <- append_assoc. apply drop_last_byte.
Qed.

(** ** What a session keeps *)

Lemma MoveSelection_frame (s : InteractiveSearch) (direction : Z) :
  engine (MoveSelection s direction) = engine s /\
  secrets (MoveSelection s direction) = secrets s /\
  results (MoveSelection s direction) = results s /\
  query (MoveSelection s direction) = query s.
Proof.
  unfold MoveSelection, set_selected.
  destruct (llen (results s) =? 0); [tauto|].
  cbn [selected results engine secrets query active].
  destruct (wrap64 (selected s + direction) <? 0);
    cbn [selected results engine secrets query active]; [tauto|].
  destruct (wrap64 (selected s + direction) >=? llen (results s));
    cbn [selected results engine secrets query active]; tauto.
Qed.

Lemma session_kept_reset (candidates : list SearchResult)
    (s : InteractiveSearch) (all : list MatchResult) (q : string) :
  session_kept candidates s ->
  Search (engine s) q (secrets s) = Returned all ->
  session_kept candidates
    {| engine := engine s; secrets := secrets s;
       results := firstn (Z.to_nat MaxDisplayResults) all;
       query := q; selected := 0; active := active s |}.
Proof.
  intros (Hinv & Hen & Hse & _) Hall. unfold session_kept.
  cbn [engine secrets].
  split; [now apply session_inv_reset|]. split; [assumption|].
  split; [assumption|].
  right. exists all. cbn [engine secrets results query]. now split.
Qed.

Lemma applyOp_kept (candidates : list SearchResult) (s : InteractiveSearch)
    (op : SessionOp) :
  session_kept candidates s ->
  exists s', applyOp s op = Returned s' /\ session_kept candidates s'.
Proof.
  intros Hk. pose proof Hk as (Hinv & Hen & Hse & Hsync).
  pose proof (session_inv_cap s Hinv) as Hcap.
  destruct op as [ch| |direction]; cbn [applyOp].
  - destruct (AddChar_returns s ch Hcap) as (all & Hall & ->).
    eexists. split; [reflexivity|]. now apply session_kept_reset.
  - destruct (string_dec (query s) EmptyString) as [Hq|Hq].
    + rewrite RemoveChar_empty by assumption. eauto.
    + destruct (RemoveChar_returns s Hcap Hq) as (all & Hall & ->).
      eexists. split; [reflexivity|]. now apply session_kept_reset.
  - eexists. split; [reflexivity|].
    destruct (MoveSelection_frame s direction) as (He & Hs & Hr & Hq).
    unfold session_kept, session_sync. rewrite He, Hs, Hr, Hq.
    split; [now apply MoveSelection_inv|]. tauto.
Qed.

Lemma applyOps_kept (candidates : list SearchResult) (ops : list SessionOp) :
  forall s,
    session_kept candidates s ->
    exists s', applyOps s ops = Returned s' /\ session_kept candidates s'.
Proof.
  induction ops as [|op rest IH]; intros s Hk; cbn [applyOps].
  - eauto.
  - destruct (applyOp_kept candidates s op Hk) as (s1 & -> & Hk1).
    cbn [bind]. now apply IH.
Qed.

Lemma NewInteractiveSearch_kept (candidates : list SearchResult) :
  session_kept candidates (NewInteractiveSearch candidates).
Proof.
  unfold session_kept. split; [apply NewInteractiveSearch_inv|].
  split; [reflexivity|]. split; [reflexivity|]. left. now split.
Qed.

(** The visible results follow the query.  In every state a session
    reaches, the engine is the one the session was made with (defaults,
    cap 10), the candidates are the ones it was given, and the visible
    results are the first [MaxDisplayResults] results of a search for the
    current query; only a session whose query was never edited shows
    nothing for the empty query. *)
Theorem session_shows_results_of_its_query :
  forall (candidates : list SearchResult) (ops : list SessionOp),
    exists s,
      applyOps (NewInteractiveSearch candidates) ops = Returned s /\
      engine s = SetMaxResults NewEngine 10 /\
      secrets s = candidates /\
      ((results s = [] /\ query s = EmptyString) \/
       exists all,
         Search (SetMaxResults NewEngine 10) (query s) candidates
           = Returned all /\
         results s = firstn 5 all).
Proof.
  intros candidates ops.
  destruct (applyOps_kept candidates ops _ (NewInteractiveSearch_kept candidates))
    as (s & Hrun & (_ & Hen & Hse & Hsync)).
  exists s. split; [assumption|]. split; [exact Hen|]. split; [exact Hse|].
  unfold session_sync in Hsync. rewrite Hen, Hse in Hsync. exact Hsync.
Qed.

(** The selection is always there.  In every state a session reaches,
    [GetSelectedResult] returns nothing exactly when no result is visible,
    and otherwise the result at index [selected]; its bounds checks never
    fire on a visible list. *)
Theorem GetSelectedResult_reachable :
  forall (candidates : list SearchResult) (ops : list SessionOp),
    exists s,
      applyOps (NewInteractiveSearch candidates) ops = Returned s /\
      (results s = [] -> GetSelectedResult s = None) /\
      (results s <> [] ->
       exists r,
         GetSelectedResult s = Some r /\
         nth_error (results s) (Z.to_nat (selected s)) = Some r /\
         In r (results s)).
Proof.
  intros candidates ops.
  destruct (applyOps_inv ops _ (NewInteractiveSearch_inv candidates))
    as (s & Hrun & (_ & _ & Hsel & Hin)).
  exists s. split; [assumption|]. unfold GetSelectedResult. split.
  - intros ->. reflexivity.
  - intros Hne. specialize (Hin Hne).
    pose proof (llen_pos _ Hne) as Hpos.
    replace (llen (results s) =? 0) with false
      by (symmetry; apply Z.eqb_neq; lia).
    replace (selected s <? 0) with false by (symmetry; apply Z.ltb_ge; lia).
    replace (selected s >=? llen (results s)) with false
      by (symmetry; rewrite Z.geb_leb; apply Z.leb_gt; lia).
    cbn [orb].
    destruct (nth_error (results s) (Z.to_nat (selected s))) as [r|] eqn:E.
    + exists r. repeat split. eapply nth_error_In; eauto.
    + exfalso. apply nth_error_None in E. unfold llen in Hin. lia.
Qed.

(** When the "more results" line appears.  In every state a session
    reaches, [Render] never fails on the count, and it shows the line
    exactly when results are visible and more than five candidates score
    above zero against the query; the number shown is [min(10, n) - 5],
    so between 1 and 5, for [n] such candidates. *)
Theorem Render_moreCount_reachable :
  forall (candidates : list SearchResult) (ops : list SessionOp),
    exists s,
      applyOps (NewInteractiveSearch candidates) ops = Returned s /\
      let n := positiveCount (engine s) (query s) (secrets s) in
      Render_moreCount s =
        Returned (if negb (llen (results s) =? 0) && (5 <? n)
                  then Some (Z.min 10 n - 5) else None) /\
      (forall more, Render_moreCount s = Returned (Some more) ->
                    1 <= more <= 5).
Proof.
  intros candidates ops.
  destruct (applyOps_kept candidates ops _ (NewInteractiveSearch_kept candidates))
    as (s & Hrun & (Hinv & _ & _ & Hsync)).
  exists s. split; [assumption|]. cbv zeta.
  pose proof (Render_totalMatches_capped s Hinv) as Htot.
  change (2 * MaxDisplayResults) with 10 in Htot.
  assert (Hmore :
    Render_moreCount s =
      Returned (if negb (llen (results s) =? 0)
                   && (5 <? positiveCount (engine s) (query s) (secrets s))
                then Some (Z.min 10 (positiveCount (engine s) (query s)
                                       (secrets s)) - 5)
                else None)).
  { unfold Render_moreCount. destruct (llen (results s) =? 0) eqn:E0;
      [reflexivity|].
    rewrite Htot. cbn [bind negb andb].
    destruct Hsync as [[Hnil _]|(all & Hall & Hres)].
    { rewrite Hnil in E0. discriminate. }
    pose proof (session_inv_cap s Hinv) as Hcap.
    destruct (Search_returns (engine s) (query s) (secrets s) Hcap)
      as (all' & Hall' & Hlen).
    assert (all' = all) by congruence. subst all'.
    destruct Hinv as (Hmax & _). rewrite Hmax in Hlen.
    change (MaxDisplayResults * 2) with 10 in Hlen.
    assert (Hvis : llen (results s)
                   = Z.min 5 (positiveCount (engine s) (query s) (secrets s))).
    { rewrite Hres, llen_firstn by (unfold MaxDisplayResults; lia).
      rewrite Hlen. unfold MaxDisplayResults. lia. }
    rewrite Hvis.
    destruct (5 <? positiveCount (engine s) (query s) (secrets s)) eqn:E5.
    - apply Z.ltb_lt in E5.
      replace (Z.min 10 _ >? Z.min 5 _) with true
        by (symmetry; apply Z.gtb_lt; lia).
      do 2 f_equal. lia.
    - apply Z.ltb_ge in E5.
      replace (Z.min 10 _ >? Z.min 5 _) with false
        by (symmetry; rewrite Z.gtb_ltb; apply Z.ltb_ge; lia).
      reflexivity. }
  split; [exact Hmore|].
  intros more Hsome. rewrite Hmore in Hsome.
  destruct (negb _ && (5 <? _)) eqn:E; [|discriminate].
  apply andb_true_iff in E. destruct E as [_ E5]. apply Z.ltb_lt in E5.
  injection Hsome as <-. lia.
Qed.

(** ** [FilterTopMatches] *)

Lemma FilterTopMatches_loop_spec (matches : list MatchResult) (k : Z)
    (minScore : Q) :
  forall filtered,
    FilterTopMatches_loop matches filtered k minScore
    = filtered
      ++ firstn (Z.to_nat k - List.length filtered)
           (filter (fun m => Qle_bool minScore (Score m)) matches).
Proof.
  induction matches as [|m rest IH]; intros filtered;
    cbn [FilterTopMatches_loop filter].
  - now rewrite firstn_nil, app_nil_r.
  - destruct (Qle_bool minScore (Score m)) eqn:Emin; cbn [andb]; [|apply IH].
    unfold llen. destruct (Z.of_nat (List.length filtered) <? k) eqn:Elt.
    + apply Z.ltb_lt in Elt. rewrite IH, length_app. simpl List.length.
      replace (Z.to_nat k - List.length filtered)%nat
        with (S (Z.to_nat k - (List.length filtered + 1)))%nat by lia.
      cbn [firstn]. now rewrite <- app_assoc.
    + apply Z.ltb_ge in Elt. rewrite IH.
      replace (Z.to_nat k - List.length filtered)%nat with 0%nat by lia.
      reflexivity.
Qed.

(** [FilterTopMatches] keeps, in their order, the first [maxResults]
    matches that score at least [minScore]: every element it returns
    reaches the threshold, and there are at most [maxResults] of them.  A
    cap of zero or below gives the empty list; the function never fails. *)
Theorem FilterTopMatches_keeps_the_first_good :
  forall (e : Engine) (matches : list MatchResult) (k : Z) (minScore : Q),
    FilterTopMatches e matches k minScore
    = firstn (Z.to_nat k)
        (filter (fun m => Qle_bool minScore (Score m)) matches) /\
    Forall (fun m => (minScore <= Score m)%Q)
      (FilterTopMatches e matches k minScore) /\
    llen (FilterTopMatches e matches k minScore) <= Z.max 0 k /\
    (k <= 0 -> FilterTopMatches e matches k minScore = []).
Proof.
  intros e matches k minScore.
  assert (Heq : FilterTopMatches e matches k minScore
                = firstn (Z.to_nat k)
                    (filter (fun m => Qle_bool minScore (Score m)) matches)).
  { unfold FilterTopMatches. rewrite FilterTopMatches_loop_spec. simpl.
    now rewrite Nat.sub_0_r. }
  split; [exact Heq|]. rewrite Heq. repeat split.
  - apply Forall_forall. intros m Hm. apply firstn_In in Hm.
    apply filter_In in Hm. destruct Hm as [_ Hm]. now apply Qle_bool_iff.
  - unfold llen. rewrite length_firstn. lia.
  - intros Hk. replace (Z.to_nat k) with 0%nat by lia. reflexivity.
Qed.

(** ** [GetQuerySuggestions] *)

Lemma GetQuerySuggestions_loop_spec (e : Engine) (queryNorm : string)
    (k : Z) (candidates : list SearchResult) :
  forall (suggestions : list string) (seen : string -> bool),
    (forall key, seen key = true <-> In key suggestions) ->
    NoDup suggestions ->
    let res :=
      GetQuerySuggestions_loop e queryNorm candidates suggestions seen k in
    exists added,
      res = suggestions ++ added /\
      NoDup res /\
      Subsequence added (map Key candidates) /\
      (forall key, In key added ->
         HasPrefix (normalizeString e key) queryNorm = true) /\
      llen res <= Z.max k (llen suggestions + 1) /\
      (llen res < k ->
       forall c, In c candidates ->
         HasPrefix (normalizeString e (Key c)) queryNorm = true ->
         In (Key c) res).
Proof.
  induction candidates as [|c rest IH]; intros suggestions seen Hseen Hnd;
    cbn [GetQuerySuggestions_loop]; cbv zeta.
  - exists []. rewrite app_nil_r. repeat split; try assumption.
    + constructor.
    + intros key [].
    + lia.
    + intros _ c [].
  - set (add := HasPrefix (normalizeString e (Key c)) queryNorm
                && negb (seen (Key c))).
    destruct add eqn:Eadd.
    + subst add. apply andb_true_iff in Eadd. destruct Eadd as [Hpre Hnew].
      apply negb_true_iff in Hnew.
      assert (Hnotin : ~ In (Key c) suggestions).
      { intros Hin. apply Hseen in Hin. congruence. }
      assert (Hnd' : NoDup (suggestions ++ [Key c])).
      { apply NoDup_app; [assumption|repeat constructor; intros []|].
        intros x Hx [<-|[]]. contradiction. }
      assert (Hlen' : llen (suggestions ++ [Key c]) = llen suggestions + 1)
        by (unfold llen; rewrite length_app; simpl; lia).
      destruct (llen (suggestions ++ [Key c]) >=? k) eqn:Ebrk.
      * exists [Key c]. repeat split; try assumption.
        -- simpl. apply Subsequence_take. constructor.
        -- intros key [<-|[]]. assumption.
        -- lia.
        -- rewrite Z.geb_leb in Ebrk. apply Z.leb_le in Ebrk. lia.
      * rewrite Z.geb_leb in Ebrk. apply Z.leb_gt in Ebrk.
        destruct (IH (suggestions ++ [Key c]) (mark_seen seen (Key c)))
          as (added & Hres & Hndr & Hsub & Hpref & Hbound & Hcomplete).
        { intros key. unfold mark_seen. rewrite in_app_iff. simpl.
          destruct (String.eqb_spec key (Key c)) as [->|Hne].
          - tauto.
          - rewrite Hseen. split; [tauto|]. intros [H|[H|[]]]; [assumption|].
            congruence. }
        { assumption. }
        exists (Key c :: added). rewrite Hres, <- app_assoc. simpl.
        rewrite Hres, <- app_assoc in Hndr, Hbound, Hcomplete.
        simpl in Hndr, Hbound, Hcomplete.
        repeat split; try assumption.
        -- now apply Subsequence_take.
        -- intros key [<-|Hk]; [assumption|now apply Hpref].
        -- lia.
        -- intros Hlt c' [<-|Hc'] Hp.
           ++ apply in_or_app. right. now left.
           ++ now apply Hcomplete.
    + subst add.
      destruct (llen suggestions >=? k) eqn:Ebrk.
      * exists []. rewrite app_nil_r. repeat split; try assumption.
        -- constructor.
        -- intros key [].
        -- lia.
        -- rewrite Z.geb_leb in Ebrk. apply Z.leb_le in Ebrk. lia.
      * rewrite Z.geb_leb in Ebrk. apply Z.leb_gt in Ebrk.
        destruct (IH suggestions seen Hseen Hnd)
          as (added & Hres & Hndr & Hsub & Hpref & Hbound & Hcomplete).
        exists added. repeat split; try assumption.
        -- simpl. now apply Subsequence_skip.
        -- intros Hlt c' [<-|Hc'] Hp; [|now apply Hcomplete].
           rewrite Hp in Eadd. cbn [andb] in Eadd.
           apply negb_false_iff in Eadd. apply Hseen in Eadd.
           rewrite Hres. apply in_or_app. now left.
Qed.

Lemma GetQuerySuggestions_spec (e : Engine) (partial : string)
    (candidates : list SearchResult) (k : Z) :
  let res := GetQuerySuggestions e partial candidates k in
  NoDup res /\
  Subsequence res (map Key candidates) /\
  (forall key, In key res ->
     HasPrefix (normalizeString e key) (normalizeString e partial) = true) /\
  llen res <= Z.max 1 k /\
  (partial <> EmptyString -> llen res < k ->
   forall c, In c candidates ->
     HasPrefix (normalizeString e (Key c)) (normalizeString e partial) = true ->
     In (Key c) res) /\
  (partial = EmptyString -> res = []).
Proof.
  cbv zeta. unfold GetQuerySuggestions.
  destruct (len partial =? 0) eqn:Elen.
  - repeat split; try constructor.
    + intros key [].
    + unfold llen. simpl. lia.
    + intros Hne. apply len_eqb_0 in Hne. congruence.
  - destruct (GetQuerySuggestions_loop_spec e (normalizeString e partial) k
                candidates [] (fun _ => false))
      as (added & Hres & Hnd & Hsub & Hpref & Hbound & Hcomplete).
    { intros key. simpl. split; [discriminate|intros []]. }
    { constructor. }
    simpl in Hres. rewrite Hres in *.
    repeat split; try assumption.
    + change (llen (@nil string) + 1) with 1 in Hbound. lia.
    + intros _. exact Hcomplete.
    + intros ->. discriminate.
Qed.

(** What [GetQuerySuggestions] suggests.  The suggestions are keys of the
    candidates, each at most once and in the order of the candidates, and
    every one of them starts with the partial query once both are
    normalized; an empty partial query gives no suggestion. *)
Theorem GetQuerySuggestions_sound :
  forall (e : Engine) (partial : string) (candidates : list SearchResult)
         (k : Z),
    NoDup (GetQuerySuggestions e partial candidates k) /\
    Subsequence (GetQuerySuggestions e partial candidates k)
      (map Key candidates) /\
    (forall key, In key (GetQuerySuggestions e partial candidates k) ->
       HasPrefix (normalizeString e key) (normalizeString e partial) = true) /\
    GetQuerySuggestions e EmptyString candidates k = [].
Proof.
  intros e partial candidates k.
  destruct (GetQuerySuggestions_spec e partial candidates k)
    as (Hnd & Hsub & Hpref & _).
  repeat split; assumption.
Qed.

(** How many suggestions.  [GetQuerySuggestions] returns at most
    [maxSuggestions] keys, but one key even when [maxSuggestions] is zero
    or negative, since it tests the bound after adding; and when it
    returns fewer than [maxSuggestions], no candidate with the prefix is
    missing from them. *)
Theorem GetQuerySuggestions_count :
  forall (e : Engine) (partial : string) (candidates : list SearchResult)
         (k : Z),
    llen (GetQuerySuggestions e partial candidates k) <= Z.max 1 k /\
    (partial <> EmptyString ->
     llen (GetQuerySuggestions e partial candidates k) < k ->
     forall c, In c candidates ->
       HasPrefix (normalizeString e (Key c)) (normalizeString e partial) = true ->
       In (Key c) (GetQuerySuggestions e partial candidates k)) /\
    (forall c rest,
       candidates = c :: rest ->
       partial <> EmptyString ->
       HasPrefix (normalizeString e (Key c)) (normalizeString e partial) = true ->
       k <= 1 ->
       GetQuerySuggestions e partial candidates k = [Key c]).
Proof.
  intros e partial candidates k.
  destruct (GetQuerySuggestions_spec e partial candidates k)
    as (_ & _ & _ & Hbound & Hcomplete & _).
  split; [exact Hbound|]. split; [exact Hcomplete|].
  intros c rest -> Hne Hpre Hk.
  unfold GetQuerySuggestions. apply len_eqb_0 in Hne. rewrite Hne.
  cbn [GetQuerySuggestions_loop]. rewrite Hpre. cbn [andb negb app].
  replace (llen [Key c] >=? k) with true; [reflexivity|].
  symmetry. rewrite Z.geb_leb. apply Z.leb_le. unfold llen. simpl. lia.
Qed.

End MoreSearchProperties.

(** ** Instances of the further properties *)

Lemma Search_empty_query_browses_witness :
  map Result
    (map (fun c => {| Result := c; Score := 0; Highlights := [] |})
       vault_candidates)
  = firstn (Z.to_nat (maxResults NewEngine)) vault_candidates /\
  Forall (fun m => Score m = 0%Q /\ Highlights m = [])
    (map (fun c => {| Result := c; Score := 0; Highlights := [] |})
       vault_candidates).
Proof.
  apply (Search_empty_query_browses NewEngine vault_candidates).
  vm_compute. reflexivity.
Defined.

Lemma Search_results_ranked_witness :
  StronglySorted
    (fun a b =>
       let ka := normalizeString NewEngine (Key (Result a)) in
       let kb := normalizeString NewEngine (Key (Result b)) in
       let qn := normalizeString NewEngine "github" in
       (Score b <= Score a)%Q /\
       ((Score a == Score b)%Q ->
        (HasPrefix kb qn = true -> HasPrefix ka qn = true) /\
        (HasPrefix ka qn = HasPrefix kb qn -> String.leb ka kb = true)))
    github_results.
Proof.
  apply (Search_results_ranked NewEngine "github" vault_candidates).
  - discriminate.
  - vm_compute. reflexivity.
Defined.

Lemma Search_result_count_witness :
  llen github_results
  = Z.min (maxResults NewEngine)
      (positiveCount NewEngine "github" vault_candidates) /\
  llen github_results <= maxResults NewEngine /\
  positiveCount NewEngine EmptyString vault_candidates = llen vault_candidates.
Proof.
  apply (Search_result_count NewEngine "github" vault_candidates).
  vm_compute. reflexivity.
Defined.

Lemma Search_results_are_the_matches_witness :
  (forall m, In m github_results ->
     In (Result m) vault_candidates /\
     matches_query NewEngine "github" (Result m) = true) /\
  (positiveCount NewEngine "github" vault_candidates <= maxResults NewEngine ->
   Permutation (map Result github_results)
     (filter (matches_query NewEngine "github") vault_candidates)).
Proof.
  apply (Search_results_are_the_matches NewEngine "github" vault_candidates).
  vm_compute. reflexivity.
Defined.

Lemma Search_smaller_cap_is_prefix_witness :
  Search (SetMaxResults NewEngine 1) "github" vault_candidates
  = Returned (firstn (Z.to_nat 1) github_results).
Proof.
  apply (Search_smaller_cap_is_prefix NewEngine 1 10).
  - lia.
  - vm_compute. reflexivity.
Defined.

Lemma Search_scores_at_least_10_witness :
  (10 <= Score {| Result := candidate "api_key_github"; Score := 64;
                  Highlights := [ {| Start := 8; End := 14 |} ] |})%Q.
Proof.
  apply (Search_scores_at_least_10 NewEngine "github" vault_candidates
           github_results).
  - discriminate.
  - vm_compute. reflexivity.
  - right. left. reflexivity.
Defined.

Lemma scoreMatch_ignores_case_witness :
  scoreMatch NewEngine "GitHub" "api_key_github"
  = scoreMatch NewEngine "github" "API_Key_GitHub".
Proof.
  apply (scoreMatch_ignores_case NewEngine); reflexivity.
Defined.

Lemma MoveSelection_wraps_around_witness :
  selected (MoveSelection github_session 1)
  = (selected github_session + 1) mod llen (results github_session) /\
  selected (MoveSelection github_session (-1))
  = (selected github_session - 1) mod llen (results github_session) /\
  MoveSelection (MoveSelection github_session 1) (-1) = github_session /\
  MoveSelection (MoveSelection github_session (-1)) 1 = github_session.
Proof.
  apply (MoveSelection_wraps_around github_session).
  - vm_compute. split; [discriminate|reflexivity].
  - vm_compute. reflexivity.
Defined.

Lemma AddChar_then_RemoveChar_witness :
  exists s1 s2 all,
    AddChar github_session "x" = Returned s1 /\
    RemoveChar s1 = Returned s2 /\
    Search (engine github_session) (query s2) (secrets github_session)
      = Returned all /\
    results s2 = firstn (Z.to_nat MaxDisplayResults) all /\
    selected s2 = 0 /\
    engine s2 = engine github_session /\
    secrets s2 = secrets github_session /\
    ((nat_of_ascii "x" < 128)%nat -> query s2 = query github_session) /\
    ((128 <= nat_of_ascii "x")%nat ->
     query s2 =
       (query github_session
        ++ String (ascii_of_nat (192 + nat_of_ascii "x" / 64)) EmptyString)%string).
Proof.
  apply (AddChar_then_RemoveChar github_session "x").
  vm_compute. discriminate.
Defined.


(** * The engine on arbitrary text *)

(** ** Bytes and runes *)

Lemma byte_code (c : ascii) : byte (code c) = c.
Proof. unfold byte, code. rewrite Nat2Z.id. apply ascii_nat_embedding. Qed.

Lemma code_eqb (a b : ascii) : (code a =? code b) = Ascii.eqb a b.
Proof.
  destruct (Ascii.eqb_spec a b) as [->|Hne].
  - apply Z.eqb_refl.
  - apply Z.eqb_neq. intros H. apply Hne.
    rewrite <- (byte_code a), H. apply byte_code.
Qed.

Lemma code_nonneg (c : ascii) : 0 <= code c.
Proof. unfold code. lia. Qed.

Lemma runes_ascii (s : string) :
  Utf8.isASCII s = true -> Utf8.runes s = map code (runes s).
Proof.
  induction s as [|c s IH]; intros H; [reflexivity|].
  cbn [Utf8.isASCII] in H. apply andb_true_iff in H. destruct H as [Hc Hs].
  cbn [Utf8.runes]. cbv zeta. rewrite Hc.
  change (runes (String c s)) with (c :: runes s). cbn [map].
  now rewrite IH.
Qed.

Lemma EncodeRune_ascii (c : ascii) :
  (code c <? 128) = true -> Utf8.EncodeRune (code c) = String c EmptyString.
Proof.
  intros H. apply Z.ltb_lt in H. pose proof (code_nonneg c).
  unfold Utf8.EncodeRune.
  replace (code c <? 0) with false by (symmetry; apply Z.ltb_ge; lia).
  replace (code c <=? 127) with true by (symmetry; apply Z.leb_le; lia).
  now rewrite byte_code.
Qed.

Lemma string_of_runes_ascii (s : string) :
  Utf8.isASCII s = true -> Utf8.string_of_runes (Utf8.runes s) = s.
Proof.
  induction s as [|c s IH]; intros H; [reflexivity|].
  rewrite runes_ascii by assumption.
  cbn [Utf8.isASCII] in H. apply andb_true_iff in H. destruct H as [Hc Hs].
  change (runes (String c s)) with (c :: runes s).
  cbn [map Utf8.string_of_runes]. rewrite EncodeRune_ascii by assumption.
  rewrite <- runes_ascii by assumption. now rewrite IH.
Qed.

Lemma llen_map {A B : Type} (f : A -> B) (l : list A) :
  llen (map f l) = llen l.
Proof. unfold llen. now rewrite length_map. Qed.

Lemma llen_runes_ascii (s : string) :
  Utf8.isASCII s = true -> llen (Utf8.runes s) = len s.
Proof.
  intros H. rewrite runes_ascii by assumption.
  rewrite llen_map. apply llen_runes.
Qed.

(** ** Lower case on ASCII text *)

Lemma lowerByte_ascii (c : ascii) :
  (code (lowerByte c) <? 128) = (code c <? 128).
Proof. destruct c as [[] [] [] [] [] [] [] []]; reflexivity. Qed.

Lemma isASCII_ToLower (s : string) :
  Utf8.isASCII (ToLower s) = Utf8.isASCII s.
Proof.
  induction s as [|c s IH]; [reflexivity|].
  cbn [ToLower Utf8.isASCII]. now rewrite lowerByte_ascii, IH.
Qed.

Lemma ToLower_ascii (s : string) :
  Utf8.isASCII s = true -> Utf8.ToLower s = ToLower s.
Proof. intros H. unfold Utf8.ToLower. now rewrite H. Qed.

Lemma normalizeString_ascii (e : Engine) (s : string) :
  Utf8.isASCII s = true ->
  Utf8.normalizeString e s = normalizeString e s /\
  Utf8.isASCII (normalizeString e s) = true.
Proof.
  intros H. unfold Utf8.normalizeString, normalizeString.
  destruct (caseSensitive e); [now split|].
  split; [now apply ToLower_ascii|now rewrite isASCII_ToLower].
Qed.

(** ** Scoring on ASCII text *)

Lemma fuzzyLoop_ascii (t : list rune) :
  forall (q : list rune) (pos consecutive : Z) (total : Q) (matched : list Z),
    Utf8.fuzzyLoop (map code q) (map code t) pos consecutive total matched
    = Utf8.mkFuzzyWalk
        (map code (unmatched (fuzzyLoop q t pos consecutive total matched)))
        (totalScore (fuzzyLoop q t pos consecutive total matched))
        (matchedPositions (fuzzyLoop q t pos consecutive total matched)).
Proof.
  induction t as [|b t IH]; intros [|a q] pos consecutive total matched;
    try reflexivity.
  cbn [map Utf8.fuzzyLoop fuzzyLoop]. rewrite code_eqb.
  destruct (Ascii.eqb a b).
  - apply IH.
  - apply (IH (a :: q)).
Qed.

Lemma fuzzyScore_ascii (e : Engine) (q t o o' : string) :
  Utf8.isASCII q = true -> Utf8.isASCII t = true ->
  Utf8.fuzzyScore e q t o = fuzzyScore e q t o'.
Proof.
  intros Hq Ht. unfold Utf8.fuzzyScore, fuzzyScore.
  destruct ((len q =? 0) || (len t =? 0)); [reflexivity|].
  cbv zeta. rewrite (runes_ascii q Hq), (runes_ascii t Ht).
  rewrite fuzzyLoop_ascii. cbn [Utf8.unmatched Utf8.totalScore
                                Utf8.matchedPositions].
  rewrite !llen_map.
  destruct (unmatched (fuzzyLoop (runes q) (runes t) 0 0 0%Q []));
    reflexivity.
Qed.

Lemma scoreMatch_on_ascii (e : Engine) (q t : string) :
  Utf8.isASCII q = true -> Utf8.isASCII t = true ->
  Utf8.scoreMatch e q t = scoreMatch e q t.
Proof.
  intros Hq Ht. unfold Utf8.scoreMatch, scoreMatch. cbv zeta.
  destruct (normalizeString_ascii e q Hq) as [-> Hqn].
  destruct (normalizeString_ascii e t Ht) as [-> Htn].
  now rewrite (fuzzyScore_ascii e _ _ t t Hqn Htn).
Qed.

Section Utf8Properties.

Context {sorter : SliceSorter}.

(** ** What [Search] returns on arbitrary text *)

Lemma Utf8_scoreSecrets_In (e : Engine) (query : string)
    (secrets : list SearchResult) (m : MatchResult) :
  In m (Utf8.scoreSecrets e query secrets) ->
  In (Result m) secrets /\
  Qltb 0 (fst (Utf8.scoreMatch e query (Key (Result m)))) = true /\
  Score m = fst (Utf8.scoreMatch e query (Key (Result m))) /\
  Highlights m =
    (if highlightMatches e
     then snd (Utf8.scoreMatch e query (Key (Result m))) else []).
Proof.
  induction secrets as [|secret rest IH]; cbn [Utf8.scoreSecrets];
    [intros []|].
  destruct (Utf8.scoreMatch e query (Key secret)) as [score hl] eqn:Esc.
  destruct (Qltb 0 score) eqn:Epos.
  - intros [<-|Hin].
    + cbn [Result Score Highlights]. rewrite Esc. cbn [fst snd].
      repeat split; [now left|assumption].
    + destruct (IH Hin) as (H1 & H2). split; [now right|assumption].
  - intros Hin. destruct (IH Hin) as (H1 & H2). split; [now right|assumption].
Qed.

Lemma Utf8_Search_In (e : Engine) (query : string)
    (secrets : list SearchResult) (res : list MatchResult) (m : MatchResult) :
  Utf8.Search e query secrets = Returned res ->
  In m res ->
  In (Result m) secrets /\
  (Highlights m = [] \/
   (query <> EmptyString /\
    Highlights m = snd (Utf8.scoreMatch e query (Key (Result m))))).
Proof.
  unfold Utf8.Search. intros Hres Hin.
  destruct (len query =? 0) eqn:Eq;
    apply limitResults_returned in Hres; destruct Hres as [_ ->];
    apply firstn_In in Hin.
  - apply in_map_iff in Hin. destruct Hin as (c & <- & Hc).
    cbn [Result Highlights]. split; [assumption|now left].
  - apply (Permutation_in _ (Permutation_sym (sort_Slice_perm _ _ _))) in Hin.
    apply Utf8_scoreSecrets_In in Hin. destruct Hin as (H1 & _ & _ & H4).
    split; [assumption|]. rewrite H4.
    destruct (highlightMatches e); [right|now left].
    split; [now apply len_eqb_0|reflexivity].
Qed.

Lemma sort_Slice_single {A : Type} (lt : A -> A -> bool) (a : A) :
  sort_Slice lt [a] = [a].
Proof.
  pose proof (sort_Slice_perm A lt [a]) as Hperm.
  now apply Permutation_length_1_inv in Hperm.
Qed.

(** ** Highlights on arbitrary text *)

(** C6 (the code breaks the check of its own test, "highlight ranges are
    valid": [highlight.End <= len(result.Result.Key)]).  With the default
    engine, the query U+212A (the Kelvin sign, three bytes) and the valid
    key "ka", the lower-cased query is "k", a prefix of the key, and the
    prefix tier highlights [[0, len(query))] with the length of the query
    as it was typed: [Search] returns the range [[0, 3)] for a label of
    two bytes, whichever sorter is used. *)
Theorem Search_highlight_beyond_label :
  Utf8.Search NewEngine kelvin_sign [candidate "ka"] =
    Returned [ {| Result := candidate "ka"; Score := 90;
                  Highlights := [ {| Start := 0; End := 3 |} ] |} ] /\
  validateKey "ka" = None /\
  Utf8.normalizeString NewEngine kelvin_sign = "k"%string /\
  len kelvin_sign = 3 /\
  len (Key (candidate "ka")) = 2 /\
  ~ valid_highlights (Key (candidate "ka")) [ {| Start := 0; End := 3 |} ].
Proof.
  split.
  - unfold Utf8.Search.
    change (len kelvin_sign =? 0) with false. cbv iota.
    change (Utf8.scoreSecrets NewEngine kelvin_sign [candidate "ka"])
      with [ {| Result := candidate "ka"; Score := 90;
                Highlights := [ {| Start := 0; End := 3 |} ] |} ].
    rewrite sort_Slice_single. reflexivity.
  - do 4 (split; [reflexivity|]).
    intros (Hin & _). inversion Hin as [|? ? (_ & _ & Hend) _]; subst.
    cbn in Hend. lia.
Qed.

Lemma Search_highlights_valid_on_ascii_aux (e : Engine) (q : string)
    (candidates : list SearchResult) (res : list MatchResult)
    (m : MatchResult) :
  Utf8.isASCII q = true ->
  Forall (fun c => Utf8.isASCII (Key c) = true) candidates ->
  Utf8.Search e q candidates = Returned res ->
  In m res ->
  Utf8.isASCII (Key (Result m)) = true /\
  valid_highlights (Key (Result m)) (Highlights m).
Proof.
  intros Hq Hkeys Hres Hin.
  destruct (Utf8_Search_In _ _ _ _ _ Hres Hin) as [Hc Hhl].
  rewrite Forall_forall in Hkeys. pose proof (Hkeys _ Hc) as Hkey.
  split; [exact Hkey|].
  destruct Hhl as [->|[Hne ->]]; [apply valid_highlights_nil|].
  rewrite scoreMatch_on_ascii by assumption.
  now apply scoreMatch_highlights_valid.
Qed.

(** On ASCII text the highlights are in order.  For a query and keys of
    bytes below [0x80] (every key [validateKey] accepts is one), each
    element of the list [Search] returns has highlights that lie inside
    its own label, ascend and do not overlap. *)
Theorem Search_highlights_valid_on_ascii :
  forall (e : Engine) (q : string) (candidates : list SearchResult)
         (res : list MatchResult) (m : MatchResult),
    Utf8.isASCII q = true ->
    Forall (fun c => Utf8.isASCII (Key c) = true) candidates ->
    Utf8.Search e q candidates = Returned res ->
    In m res ->
    valid_highlights (Key (Result m)) (Highlights m).
Proof.
  intros e q candidates res m Hq Hkeys Hres Hin.
  apply (Search_highlights_valid_on_ascii_aux e q candidates res m); assumption.
Qed.

(** A match on ASCII text is highlighted character for character.  For a
    query and a label of bytes below [0x80], whenever [scoreMatch] gives a
    positive score the ranges it returns cover exactly [len(query)]
    characters of the label. *)
Theorem scoreMatch_highlights_cover_ascii_query :
  forall (e : Engine) (q t : string),
    Utf8.isASCII q = true ->
    Utf8.isASCII t = true ->
    Qltb 0 (fst (Utf8.scoreMatch e q t)) = true ->
    highlighted_width (snd (Utf8.scoreMatch e q t)) = len q.
Proof.
  intros e q t Hq Ht. rewrite scoreMatch_on_ascii by assumption.
  apply scoreMatch_highlights_cover_query.
Qed.

(** ** [applyHighlights] *)

Lemma firstn_add_skipn {A : Type} (a d : nat) (l : list A) :
  firstn (a + d) l = firstn a l ++ firstn d (skipn a l).
Proof.
  revert l. induction a as [|a IH]; intros l; [reflexivity|].
  destruct l as [|x l]; simpl; [now rewrite firstn_nil|]. now rewrite IH.
Qed.

Lemma string_of_runes_app (a b : list Utf8.rune) :
  Utf8.string_of_runes (a ++ b)
  = (Utf8.string_of_runes a ++ Utf8.string_of_runes b)%string.
Proof.
  induction a as [|c a IH]; cbn [app Utf8.string_of_runes]; [reflexivity|].
  now rewrite IH, append_assoc.
Qed.

Lemma slice_range_ok {A : Type} (zero : A) (cap : Z) (l : list A)
    (lo hi : Z) :
  0 <= lo <= hi -> hi <= llen l -> llen l <= cap ->
  slice_range zero cap l lo hi
  = Returned (firstn (Z.to_nat (hi - lo)) (skipn (Z.to_nat lo) l)).
Proof.
  intros H1 H2 H3. unfold slice_range.
  replace (lo <? 0) with false by (symmetry; apply Z.ltb_ge; lia).
  replace (hi <? lo) with false by (symmetry; apply Z.ltb_ge; lia).
  replace (cap <? hi) with false by (symmetry; apply Z.ltb_ge; lia).
  cbn [orb]. cbv zeta. f_equal. unfold llen in *.
  rewrite skipn_app, firstn_app.
  replace (Z.to_nat (hi - lo) - List.length (skipn (Z.to_nat lo) l))%nat
    with 0%nat by (rewrite length_skipn; lia).
  cbn [firstn]. apply app_nil_r.
Qed.

Lemma prefix_extend (l : list Utf8.rune) (lo hi : Z) :
  0 <= lo <= hi ->
  (Utf8.string_of_runes (firstn (Z.to_nat lo) l)
   ++ Utf8.string_of_runes
        (firstn (Z.to_nat (hi - lo)) (skipn (Z.to_nat lo) l)))%string
  = Utf8.string_of_runes (firstn (Z.to_nat hi) l).
Proof.
  intros H. rewrite <- string_of_runes_app, <- firstn_add_skipn.
  do 2 f_equal. lia.
Qed.

(** Under any styling the loop returns when the ranges are in order. *)
Lemma applyHighlights_loop_returns (render : string -> string) (cap : Z)
    (text : list Utf8.rune) (hs : list HighlightRange) :
  llen text <= cap ->
  forall pos out,
    0 <= pos -> ranges_chain pos (llen text) hs ->
    exists pos' out',
      Utf8.applyHighlights_loop render cap text hs pos out
      = Returned (pos', out') /\
      pos <= pos' <= Z.max pos (llen text).
Proof.
  intros Hcap.
  induction hs as [|h rest IH]; intros pos out Hpos Hchain;
    cbn [Utf8.applyHighlights_loop].
  - exists pos, out. split; [reflexivity|lia].
  - destruct Hchain as (Hlo & Hne & Hhi & Hrest).
    replace (End h <=? llen text) with true by (symmetry; apply Z.leb_le; lia).
    rewrite (slice_range_ok (0 : Utf8.rune) cap text (Start h) (End h)) by lia.
    destruct (Start h >? pos).
    + rewrite (slice_range_ok (0 : Utf8.rune) cap text pos (Start h)) by lia.
      cbn [bind fst snd].
      edestruct (IH (End h)) as (pos' & out' & Hrun & Hb);
        [|exact Hrest|exists pos', out'; split; [exact Hrun|lia]]. lia.
    + cbn [bind fst snd].
      edestruct (IH (End h)) as (pos' & out' & Hrun & Hb);
        [|exact Hrest|exists pos', out'; split; [exact Hrun|lia]]. lia.
Qed.

(** With the identity for a styling the loop copies the text. *)
Lemma applyHighlights_loop_plain (cap : Z) (text : list Utf8.rune)
    (hs : list HighlightRange) :
  llen text <= cap ->
  forall pos,
    0 <= pos -> ranges_chain pos (llen text) hs ->
    exists pos',
      Utf8.applyHighlights_loop (fun x => x) cap text hs pos
        (Utf8.string_of_runes (firstn (Z.to_nat pos) text))
      = Returned (pos', Utf8.string_of_runes (firstn (Z.to_nat pos') text)) /\
      pos <= pos'.
Proof.
  intros Hcap.
  induction hs as [|h rest IH]; intros pos Hpos Hchain;
    cbn [Utf8.applyHighlights_loop].
  - exists pos. split; [reflexivity|lia].
  - destruct Hchain as (Hlo & Hne & Hhi & Hrest).
    replace (End h <=? llen text) with true by (symmetry; apply Z.leb_le; lia).
    rewrite (slice_range_ok (0 : Utf8.rune) cap text (Start h) (End h)) by lia.
    destruct (Start h >? pos) eqn:E.
    + rewrite (slice_range_ok (0 : Utf8.rune) cap text pos (Start h)) by lia.
      cbn [bind fst snd].
      rewrite (prefix_extend text pos (Start h)) by lia.
      rewrite (prefix_extend text (Start h) (End h)) by lia.
      destruct (IH (End h) ltac:(lia) Hrest) as (pos' & Hrun & Hb).
      exists pos'. split; [exact Hrun|lia].
    + rewrite Z.gtb_ltb in E. apply Z.ltb_ge in E.
      assert (Start h = pos) by lia. subst pos.
      cbn [bind fst snd].
      rewrite (prefix_extend text (Start h) (End h)) by lia.
      destruct (IH (End h) ltac:(lia) Hrest) as (pos' & Hrun & Hb).
      exists pos'. split; [exact Hrun|lia].
Qed.

Lemma valid_highlights_chain (n : Z) (hs : list HighlightRange) :
  forall lo,
    Forall (range_in n) hs -> ranges_disjoint hs ->
    Forall (fun h => lo <= Start h) hs ->
    ranges_chain lo n hs.
Proof.
  unfold ranges_disjoint.
  induction hs as [|h rest IH]; intros lo Hin Hdis Hlo; simpl; [exact I|].
  inversion Hin as [|? ? (H0 & H1 & H2) Hin']; subst.
  inversion Hdis as [|? ? Hdis' Hall]; subst.
  inversion Hlo; subst.
  repeat split; try assumption. now apply IH.
Qed.

Lemma applyHighlights_returns_aux (render : string -> string) (cap : Z)
    (text : string) (hs : list HighlightRange) :
  llen (Utf8.runes text) <= cap ->
  Utf8.string_of_runes (Utf8.runes text) = text ->
  Forall (range_in (llen (Utf8.runes text))) hs ->
  ranges_disjoint hs ->
  (exists out, Utf8.applyHighlights render cap text hs = Returned out) /\
  Utf8.applyHighlights (fun x => x) cap text hs = Returned text.
Proof.
  intros Hcap Hall Hin Hdis.
  assert (Hchain : ranges_chain 0 (llen (Utf8.runes text)) hs).
  { apply valid_highlights_chain; try assumption.
    eapply Forall_impl; [|exact Hin]. intros h (H0 & _). exact H0. }
  unfold Utf8.applyHighlights.
  destruct (llen hs =? 0); [split; [eexists|]; reflexivity|]. split.
  - destruct (applyHighlights_loop_returns render cap (Utf8.runes text) hs
                Hcap 0 EmptyString ltac:(lia) Hchain)
      as (pos' & out' & -> & Hb).
    cbn [bind fst snd]. unfold slice_from.
    destruct (pos' <? llen (Utf8.runes text)) eqn:E; [|eexists; reflexivity].
    apply Z.ltb_lt in E.
    replace (pos' <? 0) with false by (symmetry; apply Z.ltb_ge; lia).
    replace (llen (Utf8.runes text) <? pos') with false
      by (symmetry; apply Z.ltb_ge; lia).
    eexists. reflexivity.
  - destruct (applyHighlights_loop_plain cap (Utf8.runes text) hs Hcap 0
                ltac:(lia) Hchain) as (pos' & Hrun & Hb).
    change (Utf8.string_of_runes (firstn (Z.to_nat 0) (Utf8.runes text)))
      with EmptyString in Hrun.
    rewrite Hrun. cbn [bind fst snd]. unfold slice_from.
    destruct (pos' <? llen (Utf8.runes text)) eqn:E.
    + apply Z.ltb_lt in E.
      replace (pos' <? 0) with false by (symmetry; apply Z.ltb_ge; lia).
      replace (llen (Utf8.runes text) <? pos') with false
        by (symmetry; apply Z.ltb_ge; lia).
      cbn [orb bind]. f_equal.
      rewrite <- string_of_runes_app, firstn_skipn. exact Hall.
    + apply Z.ltb_ge in E. f_equal.
      rewrite firstn_all2 by (unfold llen in E; lia). exact Hall.
Qed.

(** Highlighting loses nothing.  For a text that is well-formed UTF-8
    (it is the encoding of its own runes) and ranges of rune indices that
    lie in the text and do not overlap, [applyHighlights] returns under
    every styling, and with a styling that leaves a string alone it
    returns the text itself: each character is written once, in its
    place.  This holds whatever capacity the rune slice has. *)
Theorem applyHighlights_keeps_the_text :
  forall (render : string -> string) (cap : Z) (text : string)
         (hs : list HighlightRange),
    llen (Utf8.runes text) <= cap ->
    Utf8.string_of_runes (Utf8.runes text) = text ->
    Forall (range_in (llen (Utf8.runes text))) hs ->
    ranges_disjoint hs ->
    (exists out, Utf8.applyHighlights render cap text hs = Returned out) /\
    Utf8.applyHighlights (fun x => x) cap text hs = Returned text.
Proof.
  intros render cap text hs. apply applyHighlights_returns_aux.
Qed.

(** Every result on ASCII text can be rendered.  For a query and keys of
    bytes below [0x80] and each element of a list that [Search] returns,
    [applyHighlights] on its key and its highlights returns under every
    styling, and gives back the key when the styling leaves a string
    alone. *)
Theorem Search_results_render :
  forall (render : string -> string) (cap : Z) (e : Engine) (q : string)
         (candidates : list SearchResult) (res : list MatchResult)
         (m : MatchResult),
    Utf8.isASCII q = true ->
    Forall (fun c => Utf8.isASCII (Key c) = true) candidates ->
    Utf8.Search e q candidates = Returned res ->
    In m res ->
    llen (Utf8.runes (Key (Result m))) <= cap ->
    (exists out,
       Utf8.applyHighlights render cap (Key (Result m)) (Highlights m)
       = Returned out) /\
    Utf8.applyHighlights (fun x => x) cap (Key (Result m)) (Highlights m)
    = Returned (Key (Result m)).
Proof.
  intros render cap e q candidates res m Hq Hkeys Hres Hin Hcap.
  destruct (Search_highlights_valid_on_ascii_aux e q candidates res m
              Hq Hkeys Hres Hin) as (Hkey & Hrange & _ & Hdis).
  apply applyHighlights_returns_aux.
  - exact Hcap.
  - now apply string_of_runes_ascii.
  - now rewrite llen_runes_ascii.
  - exact Hdis.
Qed.

End Utf8Properties.

(** * Keys, sessions and the cap *)

(** ** Keys that [validateKey] accepts *)

Lemma validateKey_nonempty (key : string) :
  validateKey key = None -> key <> EmptyString.
Proof. intros H ->. discriminate. Qed.

Lemma validPunct_runes :
  Utf8.runes validPunct =
  [46; 45; 95; 58; 47; 64; 35; 36; 37; 94; 38; 42; 43; 61; 91; 93; 123; 125;
   124; 92; 59; 34; 39; 60; 62; 63; 126; 96].
Proof. vm_compute. reflexivity. Qed.

Lemma isValidKeyChar_ascii (r : Utf8.rune) :
  isValidKeyChar r = true -> r < 128.
Proof.
  intros H. destruct (Z_lt_le_dec r 128) as [|Hge]; [assumption|exfalso].
  unfold isValidKeyChar in H. rewrite validPunct_runes in H.
  cbn [existsb] in H.
  repeat (apply orb_true_iff in H; destruct H as [H|H]);
    try (apply andb_true_iff in H; destruct H as [_ H];
         apply Z.leb_le in H; lia);
    try (apply Z.eqb_eq in H; lia).
  discriminate.
Qed.

Lemma acceptRange_bounds (b0 : Z) (sz : nat) (lo hi : Z) :
  Utf8.acceptRange b0 = Some (sz, lo, hi) ->
  128 <= lo /\
  ((sz = 2%nat /\ 194 <= b0) \/
   (sz = 3%nat /\ 224 <= b0 /\ (b0 = 224 -> 160 <= lo)) \/
   (sz = 4%nat /\ 240 <= b0 /\ (b0 = 240 -> 144 <= lo))).
Proof.
  unfold Utf8.acceptRange.
  destruct ((194 <=? b0) && (b0 <=? 223)) eqn:E1.
  { apply andb_true_iff in E1. destruct E1 as [E1 _]. apply Z.leb_le in E1.
    intros [= <- <- <-]. split; [lia|left; split; [reflexivity|lia]]. }
  destruct (b0 =? 224) eqn:E2.
  { apply Z.eqb_eq in E2. intros [= <- <- <-].
    split; [lia|right; left; repeat split; lia]. }
  destruct ((225 <=? b0) && (b0 <=? 236)) eqn:E3.
  { apply andb_true_iff in E3. destruct E3 as [E3 _]. apply Z.leb_le in E3.
    intros [= <- <- <-]. split; [lia|right; left; repeat split; lia]. }
  destruct (b0 =? 237) eqn:E4.
  { apply Z.eqb_eq in E4. intros [= <- <- <-].
    split; [lia|right; left; repeat split; lia]. }
  destruct ((238 <=? b0) && (b0 <=? 239)) eqn:E5.
  { apply andb_true_iff in E5. destruct E5 as [E5 _]. apply Z.leb_le in E5.
    intros [= <- <- <-]. split; [lia|right; left; repeat split; lia]. }
  destruct (b0 =? 240) eqn:E6.
  { apply Z.eqb_eq in E6. intros [= <- <- <-].
    split; [lia|right; right; repeat split; lia]. }
  destruct ((241 <=? b0) && (b0 <=? 243)) eqn:E7.
  { apply andb_true_iff in E7. destruct E7 as [E7 _]. apply Z.leb_le in E7.
    intros [= <- <- <-]. split; [lia|right; right; repeat split; lia]. }
  destruct (b0 =? 244) eqn:E8; [|discriminate].
  apply Z.eqb_eq in E8. intros [= <- <- <-].
  split; [lia|right; right; repeat split; lia].
Qed.

Lemma continuation_bounds (b : Z) :
  negb (Utf8.continuation b) = false -> 128 <= b.
Proof.
  intros H. apply negb_false_iff in H. unfold Utf8.continuation in H.
  apply andb_true_iff in H. destruct H as [H _]. now apply Z.leb_le in H.
Qed.

(** The first rune of a string that starts with a byte from [0x80] on is
    no ASCII character. *)
Lemma runes_head_not_ascii (c : ascii) (s : string) :
  128 <= code c ->
  exists r rest, Utf8.runes (String c s) = r :: rest /\ 128 <= r.
Proof.
  intros Hc. cbn [Utf8.runes]. cbv zeta.
  replace (code c <? 128) with false by (symmetry; apply Z.ltb_ge; lia).
  assert (Hinv : forall rest, exists r rest',
             Utf8.RuneError :: rest = r :: rest' /\ 128 <= r).
  { intros rest. exists Utf8.RuneError, rest. split; [reflexivity|].
    unfold Utf8.RuneError. lia. }
  destruct (Utf8.acceptRange (code c)) as [[[sz lo] hi]|] eqn:Ea;
    [|apply Hinv].
  apply acceptRange_bounds in Ea. destruct Ea as (Hlo & Hsz).
  destruct s as [|c1 s2]; [apply Hinv|].
  destruct ((code c1 <? lo) || (hi <? code c1)) eqn:E1; [apply Hinv|].
  apply orb_false_iff in E1. destruct E1 as [E1 _]. apply Z.ltb_ge in E1.
  destruct Hsz as [(-> & Hb)|[(-> & Hb & Hb')|(-> & Hb & Hb')]];
    cbn [Nat.eqb].
  - eexists. eexists. split; [reflexivity|]. lia.
  - destruct s2 as [|c2 s3]; [apply Hinv|].
    destruct (negb (Utf8.continuation (code c2))) eqn:E2; [apply Hinv|].
    apply continuation_bounds in E2.
    eexists. eexists. split; [reflexivity|]. lia.
  - destruct s2 as [|c2 s3]; [apply Hinv|].
    destruct (negb (Utf8.continuation (code c2))) eqn:E2; [apply Hinv|].
    apply continuation_bounds in E2.
    destruct s3 as [|c3 s4]; [apply Hinv|].
    destruct (negb (Utf8.continuation (code c3))) eqn:E3; [apply Hinv|].
    apply continuation_bounds in E3.
    eexists. eexists. split; [reflexivity|]. lia.
Qed.

Lemma valid_runes_ascii (key : string) :
  forallb isValidKeyChar (Utf8.runes key) = true -> Utf8.isASCII key = true.
Proof.
  induction key as [|c key IH]; intros H; [reflexivity|].
  cbn [Utf8.isASCII].
  destruct (code c <? 128) eqn:Ec.
  - cbn [Utf8.runes] in H. cbv zeta in H. rewrite Ec in H.
    cbn [forallb] in H. apply andb_true_iff in H. destruct H as [_ H].
    now rewrite IH.
  - exfalso. apply Z.ltb_ge in Ec.
    destruct (runes_head_not_ascii c key Ec) as (r & rest & Heq & Hr).
    rewrite Heq in H. cbn [forallb] in H.
    apply andb_true_iff in H. destruct H as [H _].
    apply isValidKeyChar_ascii in H. lia.
Qed.

Lemma validateKey_accepts_aux (key : string) :
  validateKey key = None ->
  key <> EmptyString /\ len key <= MaxKeyLength /\
  Utf8.isASCII key = true /\
  Forall (fun r => isValidKeyChar r = true) (Utf8.runes key).
Proof.
  intros H. split; [now apply validateKey_nonempty|].
  unfold validateKey in H.
  destruct (len key =? 0); [discriminate|].
  destruct (len key >? MaxKeyLength) eqn:El; [discriminate|].
  destruct (forallb isValidKeyChar (Utf8.runes key)) eqn:Ef; [|discriminate].
  split; [rewrite Z.gtb_ltb in El; apply Z.ltb_ge in El; exact El|].
  split; [now apply valid_runes_ascii|].
  apply Forall_forall. now apply forallb_forall.
Qed.

(** What a key of the vault is.  A key that [validateKey] accepts is not
    empty, has at most [MaxKeyLength] = 256 bytes, and every byte of it is
    below [0x80]: its runes are its bytes, each a letter, a digit or one
    of the punctuation characters of [isValidKeyChar]. *)
Theorem validateKey_accepts_ascii_keys :
  forall (key : string),
    validateKey key = None ->
    key <> EmptyString /\ len key <= MaxKeyLength /\
    Utf8.isASCII key = true /\
    Forall (fun r => isValidKeyChar r = true) (Utf8.runes key).
Proof. intros key. apply validateKey_accepts_aux. Qed.

Section VaultSessions.

Context {sorter : SliceSorter}.

(** ** The cap of [SearchInteractive] *)

(** C10 (the restore is not deferred, against "restore original
    setting").  For a cap [k >= 0], [SearchInteractive] returns what
    [Search] returns on an engine whose [maxResults] is [k], the first
    [k] of the matches, and leaves the engine as it was.  For a cap
    [k < 0] the search panics (C4) before the old cap is put back, and
    the engine is left with [maxResults = k]: not with the value from
    before the call. *)
Theorem SearchInteractive_restores_only_on_return :
  forall (e : Engine) (query : string) (secrets : list SearchResult) (k : Z),
    (0 <= k ->
     exists results,
       Search {| caseSensitive := caseSensitive e; maxResults := k;
                 highlightMatches := highlightMatches e |} query secrets
         = Returned results /\
       llen results = Z.min k (positiveCount e query secrets) /\
       SearchInteractive e query secrets k = (Returned results, e)) /\
    (k < 0 ->
     SearchInteractive e query secrets k
       = (Panicked,
          {| caseSensitive := caseSensitive e; maxResults := k;
             highlightMatches := highlightMatches e |}) /\
     (0 <= maxResults e ->
      maxResults (snd (SearchInteractive e query secrets k))
      <> maxResults e)).
Proof.
  intros e query secrets k. split.
  - intros Hk.
    destruct (Search_returns (SetMaxResults e k) query secrets Hk)
      as (results & Hres & Hlen).
    exists results. split; [exact Hres|]. split.
    + rewrite Hlen. reflexivity.
    + unfold SearchInteractive. cbv zeta. rewrite Hres.
      destruct e; reflexivity.
  - intros Hk.
    assert (Hp : Search (SetMaxResults e k) query secrets = Panicked).
    { unfold Search.
      destruct (len query =? 0); apply limitResults_negative; simpl; lia. }
    unfold SearchInteractive. cbv zeta. rewrite Hp.
    split; [reflexivity|]. cbn [snd SetMaxResults maxResults]. lia.
Qed.

(** ** The overflow count of [Render] *)

(** C3 (the capped engine of the session is used for the count, against
    the name [totalMatches] and the "... and N more" of the
    requirements).  With eleven candidates that all match "a", the
    session shows 5 results, [totalMatches] of [Render] is 10 and the line
    says "5 more", while eleven candidates score above zero and six of
    them are not shown, whichever sorter is used. *)
Theorem Render_overflow_stops_at_the_cap :
  exists s,
    applyOps (NewInteractiveSearch eleven_candidates) [OpAddChar "a"]
      = Returned s /\
    query s = "a"%string /\
    positiveCount (engine s) (query s) (secrets s) = 11 /\
    llen (results s) = 5 /\
    Render_totalMatches s = Returned 10 /\
    Render_moreCount s = Returned (Some 5) /\
    positiveCount (engine s) (query s) (secrets s) - llen (results s) = 6.
Proof.
  pose proof (NewInteractiveSearch_inv eleven_candidates) as Hinv0.
  pose proof (session_inv_cap _ Hinv0) as Hcap.
  destruct (AddChar_returns (NewInteractiveSearch eleven_candidates) "a" Hcap)
    as (all & Hall & Hadd).
  destruct (Search_returns
              (engine (NewInteractiveSearch eleven_candidates))
              (query (NewInteractiveSearch eleven_candidates)
               ++ string_of_byte "a")
              (secrets (NewInteractiveSearch eleven_candidates)) Hcap)
    as (all' & Hall' & Hlen).
  assert (all' = all) by congruence. subst all'.
  change (positiveCount _ _ _) with 11 in Hlen.
  change (maxResults _) with 10 in Hlen.
  eexists. cbn [applyOps applyOp]. rewrite Hadd. cbn [bind].
  split; [reflexivity|].
  cbn [engine query secrets results].
  assert (Hvis : llen (firstn (Z.to_nat MaxDisplayResults) all) = 5).
  { rewrite llen_firstn by (unfold MaxDisplayResults; lia).
    rewrite Hlen. reflexivity. }
  split; [reflexivity|]. split; [reflexivity|]. split; [exact Hvis|].
  assert (Htot : Render_totalMatches
                   {| engine := engine (NewInteractiveSearch eleven_candidates);
                      secrets := secrets (NewInteractiveSearch eleven_candidates);
                      results := firstn (Z.to_nat MaxDisplayResults) all;
                      query := (query (NewInteractiveSearch eleven_candidates)
                                ++ string_of_byte "a")%string;
                      selected := 0;
                      active := active (NewInteractiveSearch eleven_candidates) |}
                 = Returned 10).
  { unfold Render_totalMatches. cbn [engine query secrets].
    rewrite Hall. cbn [bind]. now rewrite Hlen. }
  split; [exact Htot|]. split.
  - unfold Render_moreCount. rewrite Htot. cbn [results bind].
    rewrite Hvis. reflexivity.
  - rewrite Hvis. reflexivity.
Qed.

(** ** The end of a session in a vault *)






End VaultSessions.

(** ** Instances of the properties on arbitrary text and on vaults *)


Lemma vault_candidates_ascii :
  Forall (fun c => Utf8.isASCII (Key c) = true) vault_candidates.
Proof. repeat (constructor; [vm_compute; reflexivity|]). constructor. Qed.


Lemma Search_highlights_valid_on_ascii_witness :
  valid_highlights "api_key_github" [ {| Start := 8; End := 14 |} ].
Proof.
  apply (Search_highlights_valid_on_ascii NewEngine "github" vault_candidates
           github_results
           {| Result := candidate "api_key_github"; Score := 64;
              Highlights := [ {| Start := 8; End := 14 |} ] |}).
  - vm_compute. reflexivity.
  - exact vault_candidates_ascii.
  - vm_compute. reflexivity.
  - right. left. reflexivity.
Defined.

Lemma scoreMatch_highlights_cover_ascii_query_witness :
  highlighted_width
    (snd (Utf8.scoreMatch NewEngine "gtok" "github_token"))
  = len "gtok".
Proof.
  apply (scoreMatch_highlights_cover_ascii_query NewEngine "gtok"
           "github_token"); vm_compute; reflexivity.
Defined.

Lemma createHighlights_marks_exactly_the_positions_witness :
  highlighted (createHighlights [0; 2; 3] (runes "abcd")) 3
  <-> In 3 [0; 2; 3].
Proof.
  apply (createHighlights_marks_exactly_the_positions [0; 2; 3]
           (runes "abcd") 3).
  repeat (constructor; [lia|]). constructor.
Defined.

(** The text [e-acute a b], its first letter in two bytes, with its last
    two characters highlighted, in a rune slice of capacity 32. *)
Lemma applyHighlights_keeps_the_text_witness :
  (exists out,
     Utf8.applyHighlights (fun x => ("[" ++ x ++ "]")%string) 32
       (String (byte 195) (String (byte 169) "ab"))
       [ {| Start := 1; End := 3 |} ] = Returned out) /\
  Utf8.applyHighlights (fun x => x) 32
    (String (byte 195) (String (byte 169) "ab"))
    [ {| Start := 1; End := 3 |} ]
  = Returned (String (byte 195) (String (byte 169) "ab")).
Proof.
  apply (applyHighlights_keeps_the_text
           (fun x => ("[" ++ x ++ "]")%string) 32
           (String (byte 195) (String (byte 169) "ab"))
           [ {| Start := 1; End := 3 |} ]).
  - vm_compute. discriminate.
  - vm_compute. reflexivity.
  - constructor; [|constructor]. vm_compute.
    repeat split; discriminate.
  - repeat constructor.
Defined.

Lemma Search_results_render_witness :
  (exists out,
     Utf8.applyHighlights (fun x => ("[" ++ x ++ "]")%string) 32
       "github_token" [ {| Start := 0; End := 6 |} ] = Returned out) /\
  Utf8.applyHighlights (fun x => x) 32 "github_token"
    [ {| Start := 0; End := 6 |} ]
  = Returned "github_token"%string.
Proof.
  apply (Search_results_render (fun x => ("[" ++ x ++ "]")%string) 32
           NewEngine "github" vault_candidates github_results
           {| Result := candidate "github_token"; Score := 90;
              Highlights := [ {| Start := 0; End := 6 |} ] |}).
  - vm_compute. reflexivity.
  - exact vault_candidates_ascii.
  - vm_compute. reflexivity.
  - left. reflexivity.
  - vm_compute. discriminate.
Defined.

Lemma validateKey_accepts_ascii_keys_witness :
  "valid_key_123"%string <> EmptyString /\
  len "valid_key_123" <= MaxKeyLength /\
  Utf8.isASCII "valid_key_123" = true /\
  Forall (fun r => isValidKeyChar r = true) (Utf8.runes "valid_key_123").
Proof.
  apply (validateKey_accepts_ascii_keys "valid_key_123").
  vm_compute. reflexivity.
Defined.

Lemma SearchInteractive_restores_only_on_return_witness :
  (exists results,
     Search {| caseSensitive := caseSensitive NewEngine; maxResults := 1;
               highlightMatches := highlightMatches NewEngine |}
       "a" [candidate "a"; candidate "ab"] = Returned results /\
     llen results
     = Z.min 1 (positiveCount NewEngine "a" [candidate "a"; candidate "ab"]) /\
     SearchInteractive NewEngine "a" [candidate "a"; candidate "ab"] 1
     = (Returned results, NewEngine)) /\
  (SearchInteractive NewEngine "a" [candidate "a"] (-1)
   = (Panicked,
      {| caseSensitive := caseSensitive NewEngine; maxResults := -1;
         highlightMatches := highlightMatches NewEngine |}) /\
   (0 <= maxResults NewEngine ->
    maxResults (snd (SearchInteractive NewEngine "a" [candidate "a"] (-1)))
    <> maxResults NewEngine)).
Proof.
  split.
  - apply (proj1 (SearchInteractive_restores_only_on_return NewEngine "a"
                    [candidate "a"; candidate "ab"] 1)). lia.
  - apply (proj2 (SearchInteractive_restores_only_on_return NewEngine "a"
                    [candidate "a"] (-1))). lia.
Defined.
